(** * Client-side search of static/js/search.js

    A shallow embedding of the search script: query tokenisation
    ([tokenize]), snippet extraction and highlighting ([buildSnippet]),
    result rendering ([render]) and the search entry point ([doSearch]),
    followed by the properties the specification states about them.

    Strings.  A JavaScript string is modelled as the list of its
    characters, a character being one of the 256 code units U+0000..U+00FF
    (Basic Latin and Latin-1 Supplement), carried by [ascii].  Lengths and
    offsets are counted in these units, as [String.prototype.length],
    [indexOf] and [slice] count them.  The one character of the script
    outside this range is the ellipsis U+2026, which [buildSnippet] puts
    around its result and nothing ever reads; it is written as the three
    units of its UTF-8 form.

    Numbers.  Offsets and lengths are integers ([Z]), with [-1] as the
    not-found value of [indexOf]; scores are rationals ([Q]). *)

From Stdlib Require Import Ascii String.
From Stdlib Require Import List Bool Arith ZArith Lia.
From Stdlib Require Import QArith Permutation Sorted.
Import ListNotations.
Open Scope Z_scope.

(* ================================================================== *)
(** ** Strings *)

Definition str := list ascii.

(** String literals of the script. *)
Definition lit (s : string) : str := list_ascii_of_string s.

Definition code (c : ascii) : Z := Z.of_nat (nat_of_ascii c).

Definition str_eqb (a b : str) : bool :=
  if list_eq_dec ascii_dec a b then true else false.

(** [s.length] *)
Definition len (s : str) : Z := Z.of_nat (length s).

(** Truthiness of a string value: [!s] holds exactly for the empty string. *)
Definition truthy (s : str) : bool :=
  match s with [] => false | _ :: _ => true end.

(** *** [String.prototype.toLowerCase]

    On U+0000..U+00FF the lower-case mapping sends A-Z, U+00C0..U+00D6 and
    U+00D8..U+00DE to the character 32 places further, and fixes every
    other character.  On these strings it keeps the length and works
    character by character; beyond them the method of the runtime does
    neither (one character may become two, and a capital sigma is mapped
    by its context), so a property that needs the length of the
    lower-cased text takes it as a hypothesis. *)
Definition is_upper (c : ascii) : bool :=
  let n := code c in
  ((65 <=? n) && (n <=? 90))
  || ((192 <=? n) && (n <=? 214))
  || ((216 <=? n) && (n <=? 222)).

Definition lower_char (c : ascii) : ascii :=
  if is_upper c then ascii_of_nat (Z.to_nat (code c + 32)) else c.

Definition toLowerCase (s : str) : str := map lower_char s.

(** *** White space: the class [\s] and the characters [trim] removes

    [\s] is WhiteSpace or LineTerminator; below U+0100 these are TAB, LF, VT,
    FF, CR, SPACE and NO-BREAK SPACE. *)
Definition is_space (c : ascii) : bool :=
  let n := code c in
  ((9 <=? n) && (n <=? 13)) || (n =? 32) || (n =? 160).

(** [String.prototype.trim] *)
Fixpoint trimStart (s : str) : str :=
  match s with
  | c :: s' => if is_space c then trimStart s' else s
  | [] => []
  end.

Definition trimEnd (s : str) : str := rev (trimStart (rev s)).

Definition trim (s : str) : str := trimEnd (trimStart s).

(** *** [String.prototype.slice] with integer arguments

    A negative index counts from the end of the string; both indices are
    then clamped to [0 .. s.length]. *)
Definition rel_index (n : Z) (i : Z) : Z :=
  if i <? 0 then Z.max (n + i) 0 else Z.min i n.

Definition slice (s : str) (from to : Z) : str :=
  let n := len s in
  let a := rel_index n from in
  let b := rel_index n to in
  firstn (Z.to_nat (b - a)) (skipn (Z.to_nat a) s).

(** *** [String.prototype.indexOf] *)
Fixpoint startsWith (s t : str) {struct t} : bool :=
  match t, s with
  | [], _ => true
  | _ :: _, [] => false
  | c :: t', d :: s' => Ascii.eqb c d && startsWith s' t'
  end.

Fixpoint indexOf_from (s t : str) (i : Z) : Z :=
  if startsWith s t then i
  else match s with
       | [] => -1
       | _ :: s' => indexOf_from s' t (i + 1)
       end.

Definition indexOf (s t : str) : Z := indexOf_from s t 0.

(* ================================================================== *)
(** ** Query Processor: [tokenize] *)

(** The separator class [[\s\-_/.,:;!?()]]. *)
Definition is_delim (c : ascii) : bool :=
  is_space c
  || existsb (Ascii.eqb c) (lit "-_/.,:;!?()").

(** [s.split(/[\s\-_/.,:;!?()]+/)].  A separator is a maximal non-empty run
    of class characters.  The pieces between separators are returned in
    order; a separator at the very start or end of [s] leaves an empty
    piece there, and a string without separator is returned whole (the
    empty string gives one empty piece).  [in_sep] tells that the previous
    character belonged to a separator. *)
Fixpoint split_from (in_sep : bool) (s : str) : list str :=
  match s with
  | [] => [[]]
  | c :: s' =>
      if is_delim c then
        if in_sep then split_from true s' else [] :: split_from true s'
      else
        match split_from false s' with
        | p :: ps => (c :: p) :: ps
        | [] => [[c]]
        end
  end.

Definition split (s : str) : list str := split_from false s.

(** [function tokenize(q)]:
    [q.toLowerCase().split(/[\s\-_/.,:;!?()]+/).filter(Boolean)], where a
    missing [q] counts as the empty string. *)
Definition tokenize (q : str) : list str :=
  filter truthy (split (toLowerCase q)).

(* ================================================================== *)
(** ** Results of computations that may throw *)

Inductive exn : Type :=
| SyntaxError (source : str).

Inductive result (A : Type) : Type :=
| Ok (a : A)
| Throw (e : exn).

Arguments Ok {A} a.
Arguments Throw {A} e.

Definition rbind {A B : Type} (r : result A) (k : A -> result B) : result B :=
  match r with
  | Ok a => k a
  | Throw e => Throw e
  end.

Notation "x <- c ;; k" := (rbind c (fun x => k))
  (at level 61, c at next level, right associativity).

(* ================================================================== *)
(** ** The regular-expression engine

    [new RegExp(source, flags)] and [String.prototype.replace] with a
    regular expression belong to the JavaScript runtime, not to the
    script.  The embedding takes them as an interface; [RegExp_new] gives
    [None] where the constructor throws a SyntaxError. *)

Class RegExpEngine : Type := {
  regexp : Type;
  RegExp_new : str -> str -> option regexp;
  replace : str -> regexp -> str -> str
}.

(* ================================================================== *)
(** ** Snippet and highlight: [buildSnippet] *)

(** The ellipsis U+2026 that [buildSnippet] puts around a window. *)
Definition ellipsis : str := lit "…".

(** [esc]: every ampersand, angle bracket, double quote and single quote of
    [s] is replaced by its character reference. *)
Definition dquote : ascii := ascii_of_nat 34.

Definition esc_char (c : ascii) : str :=
  if Ascii.eqb c "&" then lit "&amp;"
  else if Ascii.eqb c "<" then lit "&lt;"
  else if Ascii.eqb c ">" then lit "&gt;"
  else if Ascii.eqb c dquote then lit "&quot;"
  else if Ascii.eqb c "'" then lit "&#39;"
  else [c].

Definition esc (s : str) : str := flat_map esc_char s.

(** The token is passed through [t.replace] with the regular-expression
    literal [/[.*+?^${}()|[\\]\\\\]/g] and the replacement string made of a
    backslash and [$&].  In that literal the character class is closed by
    the first [\]]: it holds [. * + ? ^ $ { } ( ) | [ \].  The literal then
    goes on with two escaped backslashes and a closing bracket, so one
    match is a class character followed by the three characters [\\\]].
    Every match, found from left to right without overlap, is replaced by
    a backslash followed by the match. *)
Definition re_class (c : ascii) : bool :=
  existsb (Ascii.eqb c) (lit ".*+?^${}()|[\").

Definition backslash : ascii := "\".

Fixpoint escapeRegExp (t : str) : str :=
  match t with
  | [] => []
  | c :: t1 =>
      match t1 with
      | b1 :: b2 :: b3 :: t4 =>
          if re_class c && Ascii.eqb b1 backslash && Ascii.eqb b2 backslash
             && Ascii.eqb b3 "]"
          then backslash :: c :: b1 :: b2 :: b3 :: escapeRegExp t4
          else c :: escapeRegExp t1
      | _ => c :: escapeRegExp t1
      end
  end.

(** The source of the pattern built for a token: [`(${...})`]. *)
Definition pattern_source (t : str) : str :=
  lit "(" ++ escapeRegExp t ++ lit ")".

(** The loop [for (const t of tokens)] that finds the earliest occurrence
    of any token. *)
Definition earliest_step (lc : str) (pos : Z) (t : str) : Z :=
  let p := indexOf lc t in
  if negb (p =? -1) && ((pos =? -1) || (p <? pos)) then p else pos.

Definition earliest (lc : str) (tokens : list str) : Z :=
  fold_left (earliest_step lc) tokens (-1).

Section Snippet.

Context {engine : RegExpEngine}.

(** One round of [tokens.forEach]: build the pattern, replace. *)
Definition highlight_step (html : str) (t : str) : result str :=
  if negb (truthy t) then Ok html
  else
    match RegExp_new (pattern_source t) (lit "gi") with
    | None => Throw (SyntaxError (pattern_source t))
    | Some re => Ok (replace html re (lit "<mark>$1</mark>"))
    end.

Fixpoint highlight (tokens : list str) (html : str) : result str :=
  match tokens with
  | [] => Ok html
  | t :: ts => html' <- highlight_step html t ;; highlight ts html'
  end.

(** [function buildSnippet(text, query, maxLen = 200)], with [maxLen]
    given; the script always passes 200. *)
Definition buildSnippet (text query : str) (maxLen : Z) : result str :=
  if negb (truthy text) then Ok []
  else
    let lc := toLowerCase text in
    let tokens := tokenize query in
    if negb (0 <? Z.of_nat (length tokens)) then Ok (slice text 0 maxLen)
    else
      let pos := earliest lc tokens in
      if pos =? -1 then Ok (slice text 0 maxLen)
      else
        let start := Z.max 0 (pos - maxLen / 3) in
        let end_ := Z.min (len text) (start + maxLen) in
        let slice_ := slice text start end_ in
        html <- highlight tokens (esc slice_) ;;
        Ok ((if 0 <? start then ellipsis else [])
              ++ html
              ++ (if end_ <? len text then ellipsis else [])).

End Snippet.

(* ================================================================== *)
(** ** A reference engine for the patterns [buildSnippet] builds

    Every pattern source the script hands to [new RegExp] is one
    capturing group around an escaped token.  A token holds no
    parenthesis, period, question mark, hyphen or comma, since those
    separate tokens.  [BasicRegExp] gives the ECMAScript meaning of such
    sources for the syntax made of pattern characters, escaped syntax
    characters, [|], [*], [+], [^] and [$]:
    backtracking with greedy quantifiers, alternatives tried from left to
    right, and the flags [g] and [i].  Sources that use anything else
    (character classes, braces, letter or digit escapes, inner groups) are
    left [Unmodelled]. *)

Module BasicRegExp.

Inductive re : Type :=
| Chr (c : ascii)
| Bol
| Eol
| Seq (a b : re)
| Alt (a b : re)
| Star (a : re)
| Eps.

Inductive why : Type :=
| NothingToRepeat
| UnterminatedGroup
| TrailingBackslash.

Inductive parsed : Type :=
| Pattern (r : re)
| Invalid (w : why)
| Unmodelled.

(** SyntaxCharacter of the pattern grammar. *)
Definition is_syntax (c : ascii) : bool :=
  existsb (Ascii.eqb c) (lit "^$\.*+?()[]{}|").

Definition seq_of (rev_terms : list re) : re :=
  fold_left (fun acc t => Seq t acc) rev_terms Eps.

Definition alt_of (rev_alts : list re) (last : re) : re :=
  fold_left (fun acc a => Alt a acc) rev_alts last.

(** The inside of the group, up to its closing parenthesis.  [alts] are
    the finished alternatives and [terms] the terms of the current one,
    both latest first; [q] tells that the latest term is an atom that a
    quantifier may follow. *)
Fixpoint parse_group (s : str) (alts terms : list re) (q : bool) : parsed :=
  match s with
  | [] => Invalid UnterminatedGroup
  | c :: s' =>
      if Ascii.eqb c ")" then
        match s' with
        | [] => Pattern (alt_of alts (seq_of terms))
        | _ :: _ => Unmodelled
        end
      else if Ascii.eqb c "|" then
        parse_group s' (seq_of terms :: alts) [] false
      else if Ascii.eqb c "*" then
        match q, terms with
        | true, a :: terms' => parse_group s' alts (Star a :: terms') false
        | _, _ => Invalid NothingToRepeat
        end
      else if Ascii.eqb c "+" then
        match q, terms with
        | true, a :: terms' =>
            parse_group s' alts (Seq a (Star a) :: terms') false
        | _, _ => Invalid NothingToRepeat
        end
      else if Ascii.eqb c "^" then parse_group s' alts (Bol :: terms) false
      else if Ascii.eqb c "$" then parse_group s' alts (Eol :: terms) false
      else if Ascii.eqb c backslash then
        match s' with
        | [] => Invalid TrailingBackslash
        | d :: s'' =>
            if is_syntax d then parse_group s'' alts (Chr d :: terms) true
            else Unmodelled
        end
      else if is_syntax c then Unmodelled
      else parse_group s' alts (Chr c :: terms) true
  end.

Definition parse (source : str) : parsed :=
  match source with
  | c :: s => if Ascii.eqb c "(" then parse_group s [] [] false
              else Unmodelled
  | [] => Unmodelled
  end.

Record compiled : Type := {
  pattern : re;
  global : bool;
  ignoreCase : bool
}.

Definition has_flag (f : ascii) (flags : str) : bool :=
  existsb (Ascii.eqb f) flags.

(** [new RegExp(source, flags)] for the flags [g] and [i].  [None] stands
    for the SyntaxError of the constructor when the source is [Invalid];
    for an [Unmodelled] source it only says that this engine gives it no
    meaning. *)
Definition compile (source flags : str) : option compiled :=
  if forallb (fun f => Ascii.eqb f "g" || Ascii.eqb f "i") flags
     && (length flags <=? 2)%nat
     && negb (str_eqb flags (lit "gg")) && negb (str_eqb flags (lit "ii"))
  then
    match parse source with
    | Pattern r => Some {| pattern := r;
                           global := has_flag "g" flags;
                           ignoreCase := has_flag "i" flags |}
    | _ => None
    end
  else None.

(** Two characters match under [i] when they are equal up to case. *)
Definition char_match (ic : bool) (c d : ascii) : bool :=
  if ic then Ascii.eqb (lower_char c) (lower_char d) else Ascii.eqb c d.

(** Backtracking matcher in continuation-passing style.  A state is the
    offset reached in the subject and the rest of the subject from
    there; the result is the offset at which the whole match ends.
    [fuel] bounds the nesting of calls. *)
Fixpoint run (fuel : nat) (ic : bool) (r : re) (pos : nat) (s : str)
         (k : nat -> str -> option nat) : option nat :=
  match fuel with
  | O => None
  | S fuel' =>
      match r with
      | Eps => k pos s
      | Chr c =>
          match s with
          | d :: s' => if char_match ic c d then k (S pos) s' else None
          | [] => None
          end
      | Bol => if (pos =? 0)%nat then k pos s else None
      | Eol => match s with [] => k pos s | _ :: _ => None end
      | Seq a b =>
          run fuel' ic a pos s (fun pos' s' => run fuel' ic b pos' s' k)
      | Alt a b =>
          match run fuel' ic a pos s k with
          | Some e => Some e
          | None => run fuel' ic b pos s k
          end
      | Star a =>
          match run fuel' ic a pos s
                    (fun pos' s' =>
                       if (pos <? pos')%nat then run fuel' ic r pos' s' k
                       else None) with
          | Some e => Some e
          | None => k pos s
          end
      end
  end.

Fixpoint size (r : re) : nat :=
  match r with
  | Seq a b | Alt a b => S (size a + size b)
  | Star a => S (size a)
  | _ => 1
  end.

(** The match that starts at offset [pos], as its length. *)
Definition match_at (c : compiled) (pos : nat) (s : str) : option nat :=
  match run (2 * (size (pattern c) + length s) + 2) (ignoreCase c)
            (pattern c) pos s (fun e _ => Some e) with
  | Some e => Some (e - pos)%nat
  | None => None
  end.

(** The replacement template: [$1] and [$&] stand for the match (the
    first group is the whole pattern), [$$] for a dollar sign; the template
    of the script uses [$1] alone. *)
Fixpoint expand (template matched : str) : str :=
  match template with
  | [] => []
  | c :: t1 =>
      match t1 with
      | d :: t2 =>
          if Ascii.eqb c "$" && (Ascii.eqb d "1" || Ascii.eqb d "&")
          then matched ++ expand t2 matched
          else if Ascii.eqb c "$" && Ascii.eqb d "$"
          then d :: expand t2 matched
          else c :: expand t1 matched
      | [] => [c]
      end
  end.

(** [subject.replace(re, template)].  [skip] counts the characters of the
    subject still covered by the latest match; [live] is cleared after
    the first match when the expression is not global. *)
Fixpoint scan (c : compiled) (template : str) (live : bool)
         (pos skip : nat) (s : str) : str :=
  match skip with
  | S skip' =>
      match s with
      | _ :: s' => scan c template live (S pos) skip' s'
      | [] => []
      end
  | O =>
      match (if live then match_at c pos s else None) with
      | Some n =>
          expand template (firstn n s) ++
          match s with
          | d :: s' =>
              match n with
              | O => d :: scan c template (global c) (S pos) 0 s'
              | S n' => scan c template (global c) (S pos) n' s'
              end
          | [] => []
          end
      | None =>
          match s with
          | d :: s' => d :: scan c template live (S pos) 0 s'
          | [] => []
          end
      end
  end.

Definition replace_with (subject : str) (c : compiled) (template : str)
  : str :=
  scan c template true 0 0 subject.

End BasicRegExp.

Definition basic_engine : RegExpEngine := {|
  regexp := BasicRegExp.compiled;
  RegExp_new := BasicRegExp.compile;
  replace := BasicRegExp.replace_with
|}.

(* ================================================================== *)
(** ** Documents, hits and the page *)

(** A document of the store; an absent property is [None]. *)
Record document : Type := {
  permalink : option str;
  url : option str;
  title : option str;
  summary : option str;
  description : option str;
  content : option str;
  body : option str
}.

(** The empty object [{}]. *)
Definition no_document : document :=
  {| permalink := None; url := None; title := None; summary := None;
     description := None; content := None; body := None |}.

Record hit : Type := { ref : str; score : Q }.

(** The document store [idx.documentStore.docs], an object read by key. *)
Definition store_t := list (str * document).

Fixpoint lookup (store : store_t) (key : str) : option document :=
  match store with
  | [] => None
  | (k, d) :: rest => if str_eqb k key then Some d else lookup rest key
  end.

(** [a || b] where [a] is a possibly absent string property. *)
Definition or_else (a : option str) (b : str) : str :=
  match a with
  | Some s => if truthy s then s else b
  | None => b
  end.

(** One [<li>] of the result list: the link and, when there is a snippet,
    the [<div class=muted>] below it. *)
Record li : Type := {
  a_href : str;
  a_textContent : str;
  div_innerHTML : option str
}.

(** What the results container shows. *)
Inductive results : Type :=
| Blank
| NoResults
| Ul (items : list li).

(** The search options handed to [idx.search]. *)
Record options : Type := {
  opt_bool : str;
  opt_expand : bool;
  opt_fields : option (list (str * Z))
}.

(** Calls that leave the script body. *)
Inductive call : Type :=
| IndexSearch (query : str) (opts : options)
| ArraySort (hits : list hit).

Record page : Type := {
  resultsEl : results;
  calls : list call
}.

(** *** State and exceptions *)

Definition M (A : Type) : Type := page -> page * result A.

Definition ret {A : Type} (a : A) : M A := fun p => (p, Ok a).

Definition bind {A B : Type} (m : M A) (k : A -> M B) : M B :=
  fun p =>
    match m p with
    | (p', Ok a) => k a p'
    | (p', Throw e) => (p', Throw e)
    end.

Definition lift {A : Type} (r : result A) : M A := fun p => (p, r).

Definition set_results (r : results) : M unit :=
  fun p => ({| resultsEl := r; calls := calls p |}, Ok tt).

Definition record_call (c : call) : M unit :=
  fun p => ({| resultsEl := resultsEl p; calls := calls p ++ [c] |}, Ok tt).

Notation "x <~ c ;; k" := (bind c (fun x => k))
  (at level 61, c at next level, right associativity).
Notation "c ;;; k" := (bind c (fun _ => k))
  (at level 61, right associativity).

(** *** [Array.prototype.sort] with a comparison function

    The sort is stable: an element moves behind another one only when the
    comparison of the two is positive. *)
Section Sort.

Variable A : Type.
Variable compareFn : A -> A -> Q.

Fixpoint insert (x : A) (l : list A) : list A :=
  match l with
  | [] => [x]
  | y :: l' =>
      if Qlt_le_dec 0 (compareFn x y) then y :: insert x l'
      else x :: l
  end.

Fixpoint sort (l : list A) : list A :=
  match l with
  | [] => []
  | x :: l' => insert x (sort l')
  end.

End Sort.

Arguments insert {A} compareFn x l.
Arguments sort {A} compareFn l.

(** The comparison function of [doSearch]: [(a, b) => b.score - a.score]. *)
Definition by_score_desc (a b : hit) : Q := score b - score a.

(* ================================================================== *)
(** ** Result Renderer and Search Engine *)

Section Search.

Context {engine : RegExpEngine}.

(** The loaded index: its search function, its field names and its
    document store. *)
Variable idx_search : str -> options -> list hit.
Variable fields : list str.
Variable store : store_t.

Definition hasField (f : str) : bool := existsb (str_eqb f) fields.

(** The body of [hits.forEach] in [render]. *)
Definition render_hit (query : str) (h : hit) : result li :=
  let doc := match lookup store (ref h) with
             | Some d => d
             | None => no_document
             end in
  let href :=
    or_else (permalink doc)
      (or_else (url doc) (if truthy (ref h) then ref h else lit "#")) in
  let text :=
    or_else (title doc) (or_else (permalink doc) (lit "Untitled")) in
  let rawText :=
    or_else (summary doc)
      (or_else (description doc)
         (or_else (content doc) (or_else (body doc) []))) in
  snippet <- buildSnippet rawText query 200 ;;
  Ok {| a_href := href;
        a_textContent := text;
        div_innerHTML := if truthy snippet then Some snippet else None |}.

Fixpoint render_all (query : str) (hits : list hit) : result (list li) :=
  match hits with
  | [] => Ok []
  | h :: hs =>
      item <- render_hit query h ;;
      items <- render_all query hs ;;
      Ok (item :: items)
  end.

(** [function render(hits, query)] *)
Definition render (hits : list hit) (query : str) : M unit :=
  set_results Blank ;;;
  match hits with
  | [] => set_results NoResults
  | _ :: _ =>
      items <~ lift (render_all query hits) ;;
      set_results (Ul items)
  end.

(** The [boosted] object of [doSearch], as its entries in insertion
    order. *)
Definition boosted : list (str * Z) :=
  (if hasField (lit "title") then [(lit "title", 8)] else [])
  ++ (if hasField (lit "summary") then [(lit "summary", 4)] else [])
  ++ (if hasField (lit "description") then [(lit "description", 4)] else [])
  ++ (if hasField (lit "body") then [(lit "body", 2)] else [])
  ++ (if hasField (lit "content") then [(lit "content", 2)] else []).

Definition search_options : options :=
  {| opt_bool := lit "OR";
     opt_expand := true;
     opt_fields := match boosted with
                   | [] => None
                   | _ :: _ => Some boosted
                   end |}.

(** [function doSearch(q)] *)
Definition doSearch (q : str) : M unit :=
  let query := trim q in
  if len query <? 2 then set_results Blank
  else
    record_call (IndexSearch query search_options) ;;;
    let hits := idx_search query search_options in
    record_call (ArraySort hits) ;;;
    let top := firstn 20 (sort by_score_desc hits) in
    render top query.

End Search.

(* ================================================================== *)
(** ** Notions of the specification *)

(** [t] occurs in [s] at offset [i]. *)
Definition occurs_at (s t : str) (i : Z) : Prop :=
  exists pre post, s = pre ++ t ++ post /\ len pre = i.

(** [t] occurs as a substring of [s]. *)
Definition occurs (s t : str) : Prop := exists i, occurs_at s t i.

(** [i] is the earliest offset in [s] at which any of [tokens] occurs. *)
Definition earliest_offset (s : str) (tokens : list str) (i : Z) : Prop :=
  (exists t, In t tokens /\ occurs_at s t i)
  /\ (forall t j, In t tokens -> occurs_at s t j -> i <= j).

(** A run is a non-empty string without separator characters. *)
Definition no_delim (w : str) : bool :=
  forallb (fun c => negb (is_delim c)) w.

Definition is_run (w : str) : Prop := w <> [] /\ no_delim w = true.

(** [Runs s ws]: [ws] are, in order, the maximal runs of [s].  A string is
    read from the left; a separator character is passed over, and a run is
    taken only when it is followed by a separator character or by the end
    of the string. *)
Inductive Runs : str -> list str -> Prop :=
| Runs_end : Runs [] []
| Runs_sep c s ws :
    is_delim c = true -> Runs s ws -> Runs (c :: s) ws
| Runs_last w :
    is_run w -> Runs w [w]
| Runs_run w c s ws :
    is_run w -> is_delim c = true -> Runs s ws ->
    Runs (w ++ c :: s) (w :: ws).

(** Hits in descending order of score. *)
Definition descending (l : list hit) : Prop :=
  StronglySorted (fun a b => score b <= score a)%Q l.

(** The hits of [l] whose score equals [q], in the order of [l]. *)
Definition ties (q : Q) (l : list hit) : list hit :=
  filter (fun h => Qeq_bool (score h) q) l.

(* ================================================================== *)
(** ** A small site, for examples *)

Definition cats_page : document :=
  {| permalink := Some (lit "/posts/cats/");
     url := None;
     title := Some (lit "Cats");
     summary := None;
     description := None;
     content := None;
     body := Some (lit "Cats are great pets") |}.

Definition dogs_page : document :=
  {| permalink := Some (lit "/posts/dogs/");
     url := None;
     title := Some (lit "Dogs & cats");
     summary := None;
     description := Some (lit "Dogs chase <b>cats</b>");
     content := None;
     body := Some (lit "Dogs are loyal") |}.

Definition sample_store : store_t :=
  [(lit "/posts/cats/", cats_page); (lit "/posts/dogs/", dogs_page)].

Definition sample_fields : list str := [lit "title"; lit "body"].

(** An index that answers every query with the same three hits, the
    first and the last of equal score. *)
Definition sample_search (query : str) (opts : options) : list hit :=
  [ {| ref := lit "/posts/dogs/"; score := 1 # 2 |};
    {| ref := lit "/posts/cats/"; score := 3 # 2 |};
    {| ref := lit "/posts/birds/"; score := 2 # 4 |} ].

Definition empty_page : page := {| resultsEl := NoResults; calls := [] |}.

(* ================================================================== *)
(** ** [debounce]

    [debounce(fn, ms)] returns a function that keeps one variable [t], the
    identifier of the timeout it set last.  Each call clears that timeout
    and sets a new one, due [ms] later, that calls [fn] with the arguments
    of the call.  The timeouts it has set and that are still to run are
    kept with their due time; the runtime may run one once its time has
    come, and a timeout that ran or was cleared is gone. *)

Section Debounce.

Variable A : Type.
Variable ms : Z.

Record debounce_state : Type := {
  timer : option nat;
  next_id : nat;
  scheduled : list (nat * (Z * A));
  fn_calls : list A
}.

Definition debounce_init : debounce_state :=
  {| timer := None; next_id := 1; scheduled := []; fn_calls := [] |}.

Definition other_than (id : nat) (e : nat * (Z * A)) : bool :=
  negb (Nat.eqb (fst e) id).

(** [clearTimeout(t)]; an undefined or stale [t] clears nothing. *)
Definition clearTimeout (t : option nat) (l : list (nat * (Z * A)))
  : list (nat * (Z * A)) :=
  match t with
  | None => l
  | Some id => filter (other_than id) l
  end.

(** The function [debounce] returns, called at time [now]. *)
Definition debounced (now : Z) (args : A) (s : debounce_state)
  : debounce_state :=
  {| timer := Some (next_id s);
     next_id := S (next_id s);
     scheduled := clearTimeout (timer s) (scheduled s)
                  ++ [(next_id s, (now + ms, args))];
     fn_calls := fn_calls s |}.

(** The runtime runs the timeout [id] at time [now], if it is scheduled
    and due. *)
Definition run_timeout (now : Z) (id : nat) (s : debounce_state)
  : debounce_state :=
  match find (fun e => Nat.eqb (fst e) id) (scheduled s) with
  | Some (_, (due, args)) =>
      if due <=? now then
        {| timer := timer s;
           next_id := next_id s;
           scheduled := filter (other_than id) (scheduled s);
           fn_calls := fn_calls s ++ [args] |}
      else s
  | None => s
  end.

Inductive event : Type :=
| Invoke (now : Z) (args : A)
| Timeout (now : Z) (id : nat).

Definition step (s : debounce_state) (e : event) : debounce_state :=
  match e with
  | Invoke now args => debounced now args s
  | Timeout now id => run_timeout now id s
  end.

Definition run_events (trace : list event) : debounce_state :=
  fold_left step trace debounce_init.

(** The latest invocation of a trace, with its time. *)
Fixpoint last_invoke (trace : list event) : option (Z * A) :=
  match trace with
  | [] => None
  | e :: rest =>
      match last_invoke rest, e with
      | Some x, _ => Some x
      | None, Invoke now args => Some (now, args)
      | None, Timeout _ _ => None
      end
  end.

Definition invocations (trace : list event) : nat :=
  length (filter (fun e => match e with Invoke _ _ => true | _ => false end)
            trace).

End Debounce.

Arguments timer {A} d.
Arguments next_id {A} d.
Arguments scheduled {A} d.
Arguments fn_calls {A} d.
Arguments debounce_init {A}.
Arguments other_than {A} id e.
Arguments clearTimeout {A} t l.
Arguments debounced {A} ms now args s.
Arguments run_timeout {A} now id s.
Arguments Invoke {A} now args.
Arguments Timeout {A} now id.
Arguments step {A} ms s e.
Arguments run_events {A} ms trace.
Arguments last_invoke {A} trace.
Arguments invocations {A} trace.

(* ================================================================== *)
(** ** Further notions *)

(** The five characters [esc] replaces. *)
Definition html_special (c : ascii) : bool :=
  existsb (Ascii.eqb c) [ "&"%char; "<"%char; ">"%char; dquote; "'"%char ].

(** [tokens.join(" ")] *)
Fixpoint join_spaces (ws : list str) : str :=
  match ws with
  | [] => []
  | [w] => w
  | w :: rest => w ++ " "%char :: join_spaces rest
  end.

(** A string without syntax character of regular expressions. *)
Definition plain (s : str) : bool :=
  forallb (fun c => negb (BasicRegExp.is_syntax c)) s.

(** The boosts [doSearch] knows, by field name. *)
Definition boost_table : list (str * Z) :=
  [ (lit "title", 8); (lit "summary", 4); (lit "description", 4);
    (lit "body", 2); (lit "content", 2) ].

(* ================================================================== *)
(** * Properties *)

(** ** Characters and strings *)

Ltac by_cases_on_char c :=
  destruct c as [[] [] [] [] [] [] [] []]; vm_compute; try reflexivity;
  try discriminate; auto.

Lemma str_eqb_eq (a b : str) : str_eqb a b = true <-> a = b.
Proof.
  unfold str_eqb. destruct (list_eq_dec ascii_dec a b); split; congruence.
Qed.

Lemma str_eqb_refl (a : str) : str_eqb a a = true.
Proof. now apply str_eqb_eq. Qed.

Lemma len_nonneg (s : str) : 0 <= len s.
Proof. unfold len. lia. Qed.

Lemma len_app (s t : str) : len (s ++ t) = len s + len t.
Proof. unfold len. rewrite length_app. lia. Qed.

Lemma len_cons (c : ascii) (s : str) : len (c :: s) = 1 + len s.
Proof. unfold len. cbn [length]. lia. Qed.

Lemma truthy_true (s : str) : truthy s = true <-> s <> [].
Proof. destruct s; cbn; split; congruence. Qed.

Lemma lower_char_idem (c : ascii) : lower_char (lower_char c) = lower_char c.
Proof. by_cases_on_char c. Qed.

Lemma lower_char_not_upper (c : ascii) : is_upper (lower_char c) = false.
Proof. by_cases_on_char c. Qed.

Lemma lower_char_delim (c : ascii) : is_delim (lower_char c) = is_delim c.
Proof. by_cases_on_char c. Qed.

Lemma lower_char_space (c : ascii) : is_space c = true -> is_delim c = true.
Proof. unfold is_delim. now intros ->. Qed.

Lemma toLowerCase_idem (s : str) : toLowerCase (toLowerCase s) = toLowerCase s.
Proof.
  unfold toLowerCase. rewrite map_map. apply map_ext, lower_char_idem.
Qed.

Lemma toLowerCase_length (s : str) : length (toLowerCase s) = length s.
Proof. apply length_map. Qed.

Lemma toLowerCase_fixed (s : str) :
  Forall (fun c => lower_char c = c) s -> toLowerCase s = s.
Proof.
  induction 1 as [|c s Hc _ IH]; cbn; [reflexivity|].
  f_equal; assumption.
Qed.

(** ** Splitting *)

Lemma split_from_sep_irrelevant (s : str) :
  filter truthy (split_from true s) = filter truthy (split_from false s).
Proof.
  destruct s as [|c s]; cbn; [reflexivity|].
  destruct (is_delim c); reflexivity.
Qed.

Lemma split_from_nondelim (b : bool) (c : ascii) (s : str) :
  is_delim c = false -> split_from b (c :: s) = split_from false (c :: s).
Proof. intros H. cbn. now rewrite H. Qed.

Lemma split_from_run (b : bool) (w : str) :
  no_delim w = true -> split_from b w = [w].
Proof.
  intros H. destruct w as [|c w]; [reflexivity|].
  assert (Hc : is_delim c = false).
  { cbn in H. apply andb_prop in H as [Hc _]. now apply negb_true_iff. }
  rewrite (split_from_nondelim b c w Hc). clear Hc b.
  revert H. generalize (c :: w). clear c w.
  induction l as [|c w IH]; cbn; [reflexivity|].
  intros H. apply andb_prop in H as [Hc Hw].
  apply negb_true_iff in Hc. rewrite Hc. now rewrite (IH Hw).
Qed.

Lemma split_from_run_sep (w : str) (c : ascii) (s : str) :
  no_delim w = true -> is_delim c = true ->
  split_from false (w ++ c :: s) = w :: split_from true s.
Proof.
  intros Hw Hc. induction w as [|d w IH]; cbn.
  - now rewrite Hc.
  - cbn in Hw. apply andb_prop in Hw as [Hd Hw].
    apply negb_true_iff in Hd. rewrite Hd. now rewrite (IH Hw).
Qed.

(** The first piece of a split is the longest separator-free prefix. *)
Lemma split_from_shape (s : str) :
  exists p ps,
    split_from false s = p :: ps /\ no_delim p = true /\
    ((s = p /\ ps = []) \/
     (exists d s', s = p ++ d :: s' /\ is_delim d = true
                   /\ ps = split_from true s')).
Proof.
  induction s as [|c s IH].
  - exists [], []. cbn. auto.
  - destruct (is_delim c) eqn:Hc.
    + exists [], (split_from true s). cbn [split_from]. rewrite Hc.
      repeat split; auto. right. exists c, s. auto.
    + destruct IH as (p & ps & E & Hp & Hs).
      exists (c :: p), ps. cbn [split_from]. rewrite Hc, E.
      repeat split; auto.
      * unfold no_delim in *. cbn [forallb]. now rewrite Hc, Hp.
      * destruct Hs as [[-> ->]|(d & s' & -> & Hd & ->)]; [now left|].
        right. exists d, s'. auto.
Qed.

Lemma tokens_of_separators (b : bool) (s : str) :
  forallb is_delim s = true -> filter truthy (split_from b s) = [].
Proof.
  revert b. induction s as [|c s IH]; intros b H; cbn; [reflexivity|].
  cbn in H. apply andb_prop in H as [Hc Hs]. rewrite Hc.
  destruct b; cbn; now apply IH.
Qed.

(** ** [split] and [filter(Boolean)] give the maximal runs *)

Lemma tokens_are_Runs (s : str) : Runs s (filter truthy (split s)).
Proof.
  unfold split.
  remember (length s) as n eqn:Hn.
  revert s Hn. induction n as [n IH] using lt_wf_ind. intros s Hn.
  destruct (split_from_shape s) as (p & ps & E & Hp & Hs). rewrite E.
  destruct Hs as [[-> ->]|(d & s' & -> & Hd & ->)].
  - destruct p as [|c p]; cbn [filter truthy]; [constructor|].
    apply Runs_last. split; [discriminate|exact Hp].
  - assert (R : Runs s' (filter truthy (split_from true s'))).
    { rewrite split_from_sep_irrelevant.
      apply (IH (length s')); [|reflexivity].
      subst n. rewrite length_app. cbn. lia. }
    destruct p as [|c p]; cbn [filter truthy app].
    + now apply Runs_sep.
    + apply (Runs_run (c :: p) d); auto. split; [discriminate|exact Hp].
Qed.

Lemma Runs_are_tokens (s : str) (ws : list str) :
  Runs s ws -> filter truthy (split s) = ws.
Proof.
  unfold split.
  induction 1
    as [|c s ws Hc _ IH|w [Hne Hw]|w c s ws [Hne Hw] Hc _ IH].
  - reflexivity.
  - cbn [split_from]. rewrite Hc. cbn [filter truthy].
    now rewrite split_from_sep_irrelevant.
  - rewrite (split_from_run false w Hw). cbn [filter].
    destruct w; [congruence|reflexivity].
  - rewrite (split_from_run_sep w c s Hw Hc). cbn [filter].
    rewrite split_from_sep_irrelevant, IH.
    destruct w; [congruence|reflexivity].
Qed.

Lemma tokenize_sound (q : str) (t : str) :
  In t (tokenize q) ->
  is_run t /\ Forall (fun c => lower_char c = c) t.
Proof.
  unfold tokenize. intros H.
  assert (G : forall s ws, Runs s ws -> forall t, In t ws ->
              is_run t /\ forall c, In c t -> In c s).
  { induction 1 as [|c s ws Hc _ IH|w Hw|w c s ws Hw Hc _ IH];
      intros u Hu; cbn in Hu.
    - contradiction.
    - destruct (IH u Hu) as [R I]. split; [exact R|].
      intros x Hx. right. now apply I.
    - destruct Hu as [<-|[]]. split; auto.
    - destruct Hu as [<-|Hu].
      + split; [exact Hw|]. intros x Hx. apply in_or_app. now left.
      + destruct (IH u Hu) as [R I]. split; [exact R|].
        intros x Hx. apply in_or_app. right. right. now apply I. }
  destruct (G _ _ (tokens_are_Runs (toLowerCase q)) t H) as [R I].
  split; [exact R|].
  apply Forall_forall. intros c Hc. apply I in Hc.
  unfold toLowerCase in Hc. apply in_map_iff in Hc as (d & <- & _).
  apply lower_char_idem.
Qed.

Lemma tokenize_nonempty (q : str) (t : str) : In t (tokenize q) -> t <> [].
Proof. intros H. now destruct (tokenize_sound q t H) as [[Hne _] _]. Qed.

(** C7.  [tokenize] returns, in order, the non-empty maximal runs of the
    lower-cased input between separators (white space and the punctuation
    [-_/.,:;!?()]): it is the one sequence [ws] with
    [Runs (toLowerCase q) ws].  Its tokens are non-empty, hold no separator
    and no upper-case letter; input made of white space only, and the
    empty input, give no token; and [tokenize] of Hello, World! is
    hello, world. *)
Theorem C7_tokenize_runs :
  (forall q ws, Runs (toLowerCase q) ws <-> tokenize q = ws)
  /\ (forall q t, In t (tokenize q) ->
        t <> [] /\ forallb (fun c => negb (is_delim c)) t = true
        /\ forallb (fun c => negb (is_upper c)) t = true)
  /\ (forall q, forallb is_space q = true -> tokenize q = [])
  /\ tokenize (lit "Hello, World!") = [lit "hello"; lit "world"]
  /\ tokenize (lit "") = [].
Proof.
  split; [|split; [|split; [|split]]].
  - intros q ws. split.
    + apply Runs_are_tokens.
    + intros <-. apply tokens_are_Runs.
  - intros q t H. destruct (tokenize_sound q t H) as [[Hne Hd] Hl].
    repeat split; auto.
    apply forallb_forall. intros c Hc.
    rewrite Forall_forall in Hl. rewrite <- (Hl c Hc).
    now rewrite lower_char_not_upper.
  - intros q H. unfold tokenize, split. apply tokens_of_separators.
    unfold toLowerCase. rewrite forallb_forall in *.
    intros c Hc. apply in_map_iff in Hc as (d & <- & Hd).
    rewrite lower_char_delim. apply lower_char_space. now apply H.
  - reflexivity.
  - reflexivity.
Qed.

Lemma C7_tokenize_runs_witness :
  Runs (toLowerCase (lit "a-B")) [lit "a"; lit "b"]
  /\ forallb is_space (lit "   ") = true
  /\ tokenize (lit "a-B") = [lit "a"; lit "b"]
  /\ tokenize (lit "   ") = [].
Proof.
  destruct C7_tokenize_runs as (H1 & _ & H3 & _).
  assert (E : tokenize (lit "a-B") = [lit "a"; lit "b"]) by reflexivity.
  split; [apply H1; exact E|].
  split; [reflexivity|].
  split; [exact E|].
  apply H3. reflexivity.
Defined.

(** C10.  [tokenize] does not depend on the case of its input, and every
    token it returns is tokenised to itself alone. *)
Theorem C10_tokenize_case_and_fixpoint :
  forall q,
    tokenize q = tokenize (toLowerCase q)
    /\ forall t, In t (tokenize q) -> tokenize t = [t].
Proof.
  intros q. split.
  - unfold tokenize. now rewrite toLowerCase_idem.
  - intros t H. destruct (tokenize_sound q t H) as [[Hne Hd] Hl].
    unfold tokenize, split. rewrite (toLowerCase_fixed t Hl).
    rewrite (split_from_run false t Hd). cbn [filter].
    destruct t; [congruence|reflexivity].
Qed.

Lemma C10_tokenize_case_and_fixpoint_witness :
  In (lit "world") (tokenize (lit "Hello, World!"))
  /\ tokenize (lit "world") = [lit "world"].
Proof.
  assert (H : In (lit "world") (tokenize (lit "Hello, World!"))).
  { cbn. right. left. reflexivity. }
  split; [exact H|].
  exact (proj2 (C10_tokenize_case_and_fixpoint (lit "Hello, World!")) _ H).
Defined.

(** ** [indexOf] and the earliest occurrence *)

Lemma startsWith_spec (s t : str) :
  startsWith s t = true <-> exists post, s = t ++ post.
Proof.
  revert s. induction t as [|c t IH]; intros s; cbn.
  - split; [intros _; now exists s|reflexivity].
  - destruct s as [|d s].
    + split; [discriminate|]. intros [post H]. discriminate.
    + rewrite andb_true_iff, Ascii.eqb_eq, IH. split.
      * intros [-> [post ->]]. now exists post.
      * intros [post H]. injection H as -> ->. split; [reflexivity|].
        now exists post.
Qed.

Lemma occurs_at_nonneg (s t : str) (i : Z) : occurs_at s t i -> 0 <= i.
Proof. intros (pre & post & _ & <-). apply len_nonneg. Qed.

Lemma occurs_at_head (s t : str) :
  occurs_at s t 0 <-> startsWith s t = true.
Proof.
  rewrite startsWith_spec. split.
  - intros (pre & post & -> & H). destruct pre; [|rewrite len_cons in H].
    + now exists post.
    + pose proof (len_nonneg pre). lia.
  - intros [post ->]. now exists [], post.
Qed.

Lemma occurs_at_tail (c : ascii) (s t : str) (i : Z) :
  0 < i -> occurs_at (c :: s) t i <-> occurs_at s t (i - 1).
Proof.
  intros Hi. split.
  - intros (pre & post & E & H). destruct pre as [|d pre].
    + cbn in H. unfold len in H. cbn in H. lia.
    + cbn in E. injection E as -> ->. exists pre, post.
      split; [reflexivity|]. rewrite len_cons in H. lia.
  - intros (pre & post & -> & H). exists (c :: pre), post.
    split; [reflexivity|]. rewrite len_cons. lia.
Qed.

Lemma indexOf_from_spec (t s : str) (i : Z) :
  ((forall j, ~ occurs_at s t j) /\ indexOf_from s t i = -1)
  \/ (exists j, indexOf_from s t i = i + j /\ occurs_at s t j
                /\ forall j', occurs_at s t j' -> j <= j').
Proof.
  revert i. induction s as [|c s IH]; intros i; cbn [indexOf_from].
  - destruct (startsWith [] t) eqn:E.
    + right. exists 0. split; [lia|]. split; [now apply occurs_at_head|].
      intros j'. apply occurs_at_nonneg.
    + left. split; [|reflexivity].
      intros j (pre & post & H & _).
      destruct pre; [|discriminate]. destruct t; [|discriminate].
      discriminate.
  - destruct (startsWith (c :: s) t) eqn:E.
    + right. exists 0. split; [lia|]. split; [now apply occurs_at_head|].
      intros j'. apply occurs_at_nonneg.
    + destruct (IH (i + 1)) as [(N & R)|(j & R & O & L)].
      * left. split; [|exact R].
        intros j Hj. pose proof (occurs_at_nonneg _ _ _ Hj).
        destruct (Z.eq_dec j 0) as [->|].
        -- apply occurs_at_head in Hj. congruence.
        -- apply occurs_at_tail in Hj; [|lia]. now apply (N (j - 1)).
      * right. exists (j + 1). split; [lia|].
        pose proof (occurs_at_nonneg _ _ _ O). split.
        -- apply occurs_at_tail; [lia|]. now replace (j + 1 - 1) with j by lia.
        -- intros j' Hj'. pose proof (occurs_at_nonneg _ _ _ Hj').
           destruct (Z.eq_dec j' 0) as [->|].
           ++ apply occurs_at_head in Hj'. congruence.
           ++ apply occurs_at_tail in Hj'; [|lia]. apply L in Hj'. lia.
Qed.

Lemma indexOf_spec (s t : str) :
  (indexOf s t = -1 /\ ~ occurs s t)
  \/ (0 <= indexOf s t /\ occurs_at s t (indexOf s t)
      /\ forall j, occurs_at s t j -> indexOf s t <= j).
Proof.
  unfold indexOf.
  destruct (indexOf_from_spec t s 0) as [(N & R)|(j & R & O & L)].
  - left. split; [exact R|]. intros [j Hj]. now apply (N j).
  - right. rewrite R. cbn [Z.add]. pose proof (occurs_at_nonneg _ _ _ O).
    repeat split; auto.
Qed.

Lemma earliest_spec (lc : str) (tokens : list str) :
  (earliest lc tokens = -1 /\ forall t, In t tokens -> ~ occurs lc t)
  \/ (0 <= earliest lc tokens
      /\ earliest_offset lc tokens (earliest lc tokens)).
Proof.
  unfold earliest.
  set (Inv := fun (seen : list str) (pos : Z) =>
    (pos = -1 /\ forall t, In t seen -> ~ occurs lc t)
    \/ (0 <= pos /\ earliest_offset lc seen pos)).
  assert (G : forall ts seen pos, Inv seen pos ->
                Inv (seen ++ ts) (fold_left (earliest_step lc) ts pos)).
  { induction ts as [|t ts IH]; intros seen pos I; cbn [fold_left].
    - now rewrite app_nil_r.
    - replace (seen ++ t :: ts) with ((seen ++ [t]) ++ ts)
        by now rewrite <- app_assoc.
      apply IH. unfold earliest_step.
      destruct (indexOf_spec lc t) as [[E N]|(P & O & L)].
      + rewrite E. cbn [Z.eqb negb andb].
        destruct I as [[-> I]|(P & (u & Hu & Ou) & I)].
        * left. split; [reflexivity|]. intros u Hu.
          apply in_app_or in Hu as [Hu|[<-|[]]]; auto.
        * right. split; [exact P|]. split.
          -- exists u. split; [apply in_or_app; now left|exact Ou].
          -- intros v j Hv Oj. apply in_app_or in Hv as [Hv|[<-|[]]].
             ++ now apply (I v).
             ++ exfalso. apply N. now exists j.
      + assert (Hp : (indexOf lc t =? -1) = false) by (apply Z.eqb_neq; lia).
        rewrite Hp. cbn [negb andb].
        destruct I as [[-> I]|(Q & (u & Hu & Ou) & I)].
        * cbn [Z.eqb orb]. right. split; [exact P|]. split.
          -- exists t. split; [apply in_or_app; right; now left|exact O].
          -- intros v j Hv Oj. apply in_app_or in Hv as [Hv|[<-|[]]].
             ++ exfalso. apply (I v Hv). now exists j.
             ++ now apply L.
        * assert (Hq : (pos =? -1) = false) by (apply Z.eqb_neq; lia).
          rewrite Hq. cbn [orb].
          destruct (indexOf lc t <? pos) eqn:Hlt.
          -- apply Z.ltb_lt in Hlt. right. split; [exact P|]. split.
             ++ exists t. split; [apply in_or_app; right; now left|exact O].
             ++ intros v j Hv Oj. apply in_app_or in Hv as [Hv|[<-|[]]].
                ** specialize (I v j Hv Oj). lia.
                ** now apply L.
          -- apply Z.ltb_ge in Hlt. right. split; [exact Q|]. split.
             ++ exists u. split; [apply in_or_app; now left|exact Ou].
             ++ intros v j Hv Oj. apply in_app_or in Hv as [Hv|[<-|[]]].
                ** now apply (I v).
                ** specialize (L j Oj). lia. }
  apply (G tokens [] (-1)). left. split; [reflexivity|]. intros t [].
Qed.

Lemma earliest_offset_unique (s : str) (tokens : list str) (i j : Z) :
  earliest_offset s tokens i -> earliest_offset s tokens j -> i = j.
Proof.
  intros [(t & Ht & Ot) Li] [(u & Hu & Ou) Lj].
  specialize (Li u j Hu Ou). specialize (Lj t i Ht Ot). lia.
Qed.

Lemma earliest_found (lc : str) (tokens : list str) (i : Z) :
  earliest_offset lc tokens i -> earliest lc tokens = i /\ 0 <= i.
Proof.
  intros H. destruct (earliest_spec lc tokens) as [[_ N]|[P E]].
  - destruct H as [(t & Ht & Ot) _]. exfalso. apply (N t Ht). now exists i.
  - split; [now apply (earliest_offset_unique _ _ _ _ E H)|].
    now rewrite <- (earliest_offset_unique _ _ _ _ E H).
Qed.

(** ** [slice] *)

Lemma slice_prefix (s : str) (m : Z) :
  0 <= m -> slice s 0 m = firstn (Z.to_nat m) s.
Proof.
  intros Hm. unfold slice, rel_index. pose proof (len_nonneg s) as Hs.
  replace (0 <? 0) with false by reflexivity.
  replace (m <? 0) with false by (symmetry; apply Z.ltb_ge; lia).
  rewrite (Z.min_l 0 (len s)) by lia. cbn [Z.to_nat skipn].
  rewrite Z.sub_0_r. destruct (Z.le_ge_cases m (len s)).
  - now rewrite Z.min_l by lia.
  - rewrite Z.min_r by lia. unfold len in *.
    rewrite !firstn_all2; [reflexivity|lia|lia].
Qed.

Lemma slice_from_to (s : str) (a b : Z) :
  0 <= a -> 0 <= b ->
  slice s a b = firstn (Z.to_nat (b - a)) (skipn (Z.to_nat a) s).
Proof.
  intros Ha Hb. unfold slice, rel_index. pose proof (len_nonneg s) as Hs.
  replace (a <? 0) with false by (symmetry; apply Z.ltb_ge; lia).
  replace (b <? 0) with false by (symmetry; apply Z.ltb_ge; lia).
  unfold len in *.
  destruct (Z.le_gt_cases a (Z.of_nat (length s))) as [Ha'|Ha'].
  - rewrite (Z.min_l a) by lia.
    destruct (Z.le_gt_cases b (Z.of_nat (length s))) as [Hb'|Hb'].
    + now rewrite Z.min_l by lia.
    + rewrite Z.min_r by lia.
      rewrite !firstn_all2; [reflexivity| |]; rewrite length_skipn; lia.
  - rewrite (Z.min_r a) by lia.
    rewrite !(skipn_all2 s) by lia. now rewrite !firstn_nil.
Qed.

Lemma slice_whole (s : str) : slice s 0 (len s) = s.
Proof.
  rewrite slice_prefix by apply len_nonneg.
  unfold len. rewrite Nat2Z.id. apply firstn_all.
Qed.

Lemma slice_suffix (s : str) (a : Z) :
  0 <= a -> slice s a (len s) = skipn (Z.to_nat a) s.
Proof.
  intros Ha. unfold slice, rel_index. pose proof (len_nonneg s) as Hs.
  replace (a <? 0) with false by (symmetry; apply Z.ltb_ge; lia).
  replace (len s <? 0) with false by (symmetry; apply Z.ltb_ge; lia).
  rewrite Z.min_id. unfold len in *.
  destruct (Z.le_ge_cases a (Z.of_nat (length s))).
  - rewrite Z.min_l by lia. apply firstn_all2. rewrite length_skipn. lia.
  - rewrite Z.min_r by lia. rewrite Z.sub_diag. cbn [Z.to_nat firstn].
    symmetry. apply skipn_all2. lia.
Qed.

Lemma rbind_ret (A : Type) (r : result A) : (x <- r ;; Ok x) = r.
Proof. now destruct r. Qed.

(** ** Snippets *)

Section SnippetFacts.

Context {engine : RegExpEngine}.

Lemma occurs_nonempty (s t : str) : occurs s t -> t <> [] -> s <> [].
Proof.
  intros (i & pre & post & -> & _) Ht.
  destruct pre; [destruct t; [congruence|discriminate]|discriminate].
Qed.

Lemma tokens_present (l : list str) :
  l <> [] -> negb (0 <? Z.of_nat (length l)) = false.
Proof.
  destruct l; [congruence|]. intros _. cbn [length].
  apply negb_false_iff, Z.ltb_lt. lia.
Qed.

(** The branch taken when a token occurs. *)
Lemma buildSnippet_match (text query : str) (maxLen offset : Z) :
  earliest_offset (toLowerCase text) (tokenize query) offset ->
  buildSnippet text query maxLen =
    (let start := Z.max 0 (offset - maxLen / 3) in
     let end_ := Z.min (len text) (start + maxLen) in
     html <- highlight (tokenize query) (esc (slice text start end_)) ;;
     Ok ((if 0 <? start then ellipsis else [])
           ++ html
           ++ (if end_ <? len text then ellipsis else []))).
Proof.
  intros H. pose proof H as [(t & Ht & Ot) _].
  destruct (earliest_found _ _ _ H) as [E P].
  assert (Hne : text <> []).
  { intros ->. apply (occurs_nonempty [] t); auto.
    - now exists offset.
    - now apply (tokenize_nonempty query). }
  unfold buildSnippet.
  replace (negb (truthy text)) with false
    by (symmetry; apply negb_false_iff, truthy_true; exact Hne).
  rewrite tokens_present by (intros N; rewrite N in Ht; exact Ht).
  rewrite E.
  replace (offset =? -1) with false by (symmetry; apply Z.eqb_neq; lia).
  reflexivity.
Qed.

(** The branch taken when there is no token or no token occurs. *)
Lemma buildSnippet_plain (text query : str) (maxLen : Z) :
  text <> [] ->
  tokenize query = []
  \/ (forall t, In t (tokenize query) -> ~ occurs (toLowerCase text) t) ->
  buildSnippet text query maxLen = Ok (slice text 0 maxLen).
Proof.
  intros Hne H. unfold buildSnippet.
  replace (negb (truthy text)) with false
    by (symmetry; apply negb_false_iff, truthy_true; exact Hne).
  destruct (tokenize query) as [|t ts] eqn:T; [reflexivity|].
  rewrite tokens_present by discriminate.
  destruct H as [H|H]; [discriminate|].
  destruct (earliest_spec (toLowerCase text) (t :: ts))
    as [[E _]|[P [(u & Hu & Ou) _]]].
  - now rewrite E.
  - exfalso. apply (H u Hu). now exists (earliest (toLowerCase text) (t :: ts)).
Qed.

End SnippetFacts.


(** C6.  For a maximal length that is not negative: on the empty text
    [buildSnippet] returns the empty string; on a non-empty text, when the
    query has no token or none of its tokens occurs in the lower-cased
    text, it returns the first [maxLen] characters of the text and nothing
    else (no mark, no ellipsis). *)
Theorem C6_plain_prefix :
  forall (engine : RegExpEngine) (text query : str) (maxLen : Z),
    0 <= maxLen ->
    (text = [] -> buildSnippet text query maxLen = Ok [])
    /\ (text <> [] ->
        tokenize query = []
        \/ (forall t, In t (tokenize query) ->
              ~ occurs (toLowerCase text) t) ->
        buildSnippet text query maxLen = Ok (firstn (Z.to_nat maxLen) text)).
Proof.
  intros engine text query maxLen Hm. split.
  - intros ->. reflexivity.
  - intros Hne H. rewrite (buildSnippet_plain text query maxLen Hne H).
    now rewrite slice_prefix.
Qed.


Lemma C6_plain_prefix_witness :
  0 <= 4
  /\ lit "snippet text" <> []
  /\ (tokenize (lit "--") = []
      \/ (forall t, In t (tokenize (lit "--")) ->
            ~ occurs (toLowerCase (lit "snippet text")) t))
  /\ buildSnippet (engine := basic_engine) (lit "snippet text") (lit "--") 4
     = Ok (lit "snip")
  /\ buildSnippet (engine := basic_engine) [] (lit "--") 4 = Ok [].
Proof.
  assert (H0 : 0 <= 4) by lia.
  assert (H1 : lit "snippet text" <> []) by discriminate.
  assert (H2 : tokenize (lit "--") = []
               \/ (forall t, In t (tokenize (lit "--")) ->
                     ~ occurs (toLowerCase (lit "snippet text")) t))
    by (left; reflexivity).
  split; [exact H0|]. split; [exact H1|]. split; [exact H2|]. split.
  - exact (proj2 (C6_plain_prefix basic_engine (lit "snippet text")
                    (lit "--") 4 H0) H1 H2).
  - exact (proj1 (C6_plain_prefix basic_engine [] (lit "--") 4 H0) eq_refl).
Defined.

(** C4, as amended.  For a non-empty text shorter than [maxLen] in which a
    token of the query occurs, the earliest occurrence being at [offset],
    [buildSnippet] returns the text from [start = max(0, offset -
    floor(maxLen / 3))] to its end, escaped and highlighted, with no
    ellipsis behind and with an ellipsis in front exactly when [start > 0].
    When [offset] is at most [floor(maxLen / 3)] this is the whole text
    with no ellipsis on either side. *)
Theorem C4_short_text :
  forall (engine : RegExpEngine) (text query : str) (maxLen offset : Z),
    text <> [] ->
    len text < maxLen ->
    earliest_offset (toLowerCase text) (tokenize query) offset ->
    let start := Z.max 0 (offset - maxLen / 3) in
    buildSnippet text query maxLen
    = (html <- highlight (tokenize query)
                 (esc (skipn (Z.to_nat start) text)) ;;
       Ok ((if 0 <? start then ellipsis else []) ++ html))
    /\ (offset <= maxLen / 3 ->
        buildSnippet text query maxLen
        = highlight (tokenize query) (esc text)).
Proof.
  intros engine text query maxLen offset Hne Hlen E start.
  pose proof (len_nonneg text) as Hn.
  assert (Hs : 0 <= start) by apply Z.le_max_l.
  assert (G : buildSnippet text query maxLen
              = (html <- highlight (tokenize query)
                           (esc (skipn (Z.to_nat start) text)) ;;
                 Ok ((if 0 <? start then ellipsis else []) ++ html))).
  { rewrite (buildSnippet_match text query maxLen offset E). cbv zeta.
    fold start.
    rewrite (Z.min_l (len text) (start + maxLen)) by lia.
    rewrite (slice_suffix text start Hs), Z.ltb_irrefl.
    destruct (highlight (tokenize query) (esc (skipn (Z.to_nat start) text)))
      as [html|e]; cbn [rbind]; [|reflexivity].
    now rewrite app_nil_r. }
  split; [exact G|].
  intros Hoff. rewrite G.
  replace start with 0 by (unfold start; lia).
  cbn [Z.to_nat skipn Z.ltb Z.compare app]. apply rbind_ret.
Qed.

Lemma C4_short_text_witness :
  let text := lit "Cats are great pets" in
  text <> [] /\ len text < 200
  /\ earliest_offset (toLowerCase text) (tokenize (lit "cat")) 0
  /\ 0 <= 200 / 3
  /\ buildSnippet (engine := basic_engine) text (lit "cat") 200
     = Ok (lit "<mark>Cat</mark>s are great pets").
Proof.
  intros text.
  assert (H1 : text <> []) by discriminate.
  assert (H2 : len text < 200) by (vm_compute; reflexivity).
  assert (H3 : earliest_offset (toLowerCase text) (tokenize (lit "cat")) 0).
  { split.
    - exists (lit "cat"). split; [now left|].
      exists [], (lit "s are great pets"). split; reflexivity.
    - intros t j _ O. exact (occurs_at_nonneg _ _ _ O). }
  assert (H4 : 0 <= 200 / 3) by (vm_compute; discriminate).
  split; [exact H1|]. split; [exact H2|]. split; [exact H3|].
  split; [exact H4|].
  exact (proj2 (C4_short_text basic_engine text (lit "cat") 200 0
                  H1 H2 H3) H4).
Defined.

(** C4 as stated fails: the text abcde is shorter than [maxLen = 6] and
    the token de occurs in it, yet the result starts with an ellipsis and
    lacks the first character of the text. *)
Lemma C4_counterexample :
  let text := lit "abcde" in
  let query := lit "de" in
  text <> [] /\ len text < 6
  /\ (exists t, In t (tokenize query) /\ occurs (toLowerCase text) t)
  /\ buildSnippet (engine := basic_engine) text query 6
     = Ok (ellipsis ++ lit "bc<mark>de</mark>")
  /\ highlight (engine := basic_engine) (tokenize query) (esc text)
     = Ok (lit "abc<mark>de</mark>")
  /\ buildSnippet (engine := basic_engine) text query 6
     <> highlight (engine := basic_engine) (tokenize query) (esc text).
Proof.
  intros text query.
  split; [discriminate|]. split; [vm_compute; reflexivity|]. split.
  - exists (lit "de"). split; [now left|].
    exists 3, (lit "abc"), []. split; reflexivity.
  - split; [reflexivity|]. split; [reflexivity|]. discriminate.
Qed.

(** ** Escaping *)

(** [escapeRegExp] changes nothing in a token without closing bracket. *)
Lemma escapeRegExp_unchanged (t : str) :
  ~ In "]"%char t -> escapeRegExp t = t.
Proof.
  induction t as [|c t IH]; intros H; [reflexivity|].
  assert (Ht : escapeRegExp t = t) by (apply IH; intros N; apply H; now right).
  destruct t as [|b1 [|b2 [|b3 t4]]]; cbn [escapeRegExp] in *;
    try (now rewrite ?Ht).
  assert (Hb : Ascii.eqb b3 "]" = false).
  { apply Ascii.eqb_neq. intros ->. apply H. cbn. auto. }
  rewrite Hb, andb_false_r. now rewrite Ht.
Qed.

(** C1.  On the text <b>bold</b>, [buildSnippet] returns the text as it
    is, angle brackets included, both for a query without token and for a
    query whose token does not occur; the escaped form, which the branch
    with a match would give, is different.  [render] reaches these
    branches: for the query loyal, which occurs in the body of the dogs
    page and not in its description, the description goes into the page
    with its raw tags. *)
Theorem C1_plain_branches_unescaped :
  forall engine : RegExpEngine,
    buildSnippet (lit "<b>bold</b>") (lit "--") 200 = Ok (lit "<b>bold</b>")
    /\ buildSnippet (lit "<b>bold</b>") (lit "zz") 200
       = Ok (lit "<b>bold</b>")
    /\ esc (lit "<b>bold</b>") = lit "&lt;b&gt;bold&lt;/b&gt;"
    /\ In "<"%char (lit "<b>bold</b>")
    /\ render_hit sample_store (lit "loyal")
         {| ref := lit "/posts/dogs/"; score := 1 |}
       = Ok {| a_href := lit "/posts/dogs/";
               a_textContent := lit "Dogs & cats";
               div_innerHTML := Some (lit "Dogs chase <b>cats</b>") |}.
Proof.
  intros engine. repeat split; try reflexivity. now left.
Qed.

(** C2.  The token c++ goes into the pattern source unescaped.  Its source
    (c++) is not a pattern (nothing to repeat), and [buildSnippet] throws
    on a text that holds the token.  The token a+ is unescaped as well and
    its pattern matches every run of the letter a, not the token. *)
Theorem C2_token_not_escaped :
  escapeRegExp (lit "c++") = lit "c++"
  /\ pattern_source (lit "c++") = lit "(c++)"
  /\ BasicRegExp.parse (lit "(c++)")
     = BasicRegExp.Invalid BasicRegExp.NothingToRepeat
  /\ buildSnippet (engine := basic_engine) (lit "c++ is fun") (lit "c++") 200
     = Throw (SyntaxError (lit "(c++)"))
  /\ buildSnippet (engine := basic_engine) (lit "aaa a+") (lit "a+") 200
     = Ok (lit "<mark>aaa</mark> <mark>a</mark>+").
Proof. repeat split; reflexivity. Qed.

(** ** Sorting by score *)

Lemma insert_perm (x : hit) (l : list hit) :
  Permutation (insert by_score_desc x l) (x :: l).
Proof.
  induction l as [|y l IH]; cbn [insert]; [reflexivity|].
  destruct (Qlt_le_dec 0 (by_score_desc x y)); [|reflexivity].
  rewrite IH. apply perm_swap.
Qed.

Lemma sort_perm (l : list hit) : Permutation (sort by_score_desc l) l.
Proof.
  induction l as [|x l IH]; cbn [sort]; [reflexivity|].
  rewrite insert_perm. now constructor.
Qed.

Lemma by_score_desc_pos (x y : hit) :
  (0 < by_score_desc x y <-> score x < score y)%Q.
Proof. unfold by_score_desc, Qminus. symmetry. apply Qlt_minus_iff. Qed.

Lemma insert_descending (x : hit) (l : list hit) :
  descending l -> descending (insert by_score_desc x l).
Proof.
  unfold descending.
  induction 1 as [|y l Hl IH Hy]; cbn [insert].
  - repeat constructor.
  - destruct (Qlt_le_dec 0 (by_score_desc x y)) as [Hlt|Hle].
    + apply by_score_desc_pos in Hlt. constructor; [exact IH|].
      eapply Permutation_Forall; [symmetry; apply insert_perm|].
      constructor; [now apply Qlt_le_weak|exact Hy].
    + assert (Hxy : (score y <= score x)%Q).
      { apply Qnot_lt_le. intros N. apply by_score_desc_pos in N.
        apply (Qlt_not_le _ _ N Hle). }
      constructor; [now constructor|]. constructor; [exact Hxy|].
      eapply Forall_impl; [|exact Hy]. cbn. intros z Hz.
      now apply (Qle_trans _ (score y)).
Qed.

Lemma sort_descending (l : list hit) : descending (sort by_score_desc l).
Proof.
  induction l as [|x l IH]; cbn [sort]; [constructor|].
  now apply insert_descending.
Qed.

Lemma insert_ties (q : Q) (x : hit) (l : list hit) :
  ties q (insert by_score_desc x l) = ties q (x :: l).
Proof.
  unfold ties. induction l as [|y l IH]; cbn [insert]; [reflexivity|].
  destruct (Qlt_le_dec 0 (by_score_desc x y)) as [Hlt|Hle]; [|reflexivity].
  apply by_score_desc_pos in Hlt.
  cbn [filter] in *. rewrite IH.
  destruct (Qeq_bool (score x) q) eqn:Ex; [|reflexivity].
  destruct (Qeq_bool (score y) q) eqn:Ey; [|reflexivity].
  apply Qeq_bool_iff in Ex, Ey. exfalso.
  rewrite Ex, Ey in Hlt. now apply (Qlt_irrefl q).
Qed.

Lemma sort_ties (q : Q) (l : list hit) :
  ties q (sort by_score_desc l) = ties q l.
Proof.
  induction l as [|x l IH]; cbn [sort]; [reflexivity|].
  rewrite insert_ties. unfold ties in *. cbn [filter]. now rewrite IH.
Qed.

(** ** Rendering and searching *)

Section SearchFacts.

Context {engine : RegExpEngine}.
Variable idx_search : str -> options -> list hit.
Variable fields : list str.
Variable store : store_t.

Lemma render_all_items (query : str) (hits : list hit) (items : list li) :
  render_all store query hits = Ok items ->
  Forall2 (fun h item => render_hit store query h = Ok item) hits items.
Proof.
  revert items. induction hits as [|h hs IH]; intros items; cbn [render_all].
  - intros [= <-]. constructor.
  - destruct (render_hit store query h) as [item|e] eqn:E;
      cbn [rbind]; [|discriminate].
    destruct (render_all store query hs) as [rest|e];
      cbn [rbind]; [|discriminate].
    intros [= <-]. constructor; [exact E|]. now apply IH.
Qed.

Lemma doSearch_long (q : str) (p : page) :
  2 <= len (trim q) ->
  doSearch idx_search fields store q p =
    render store
      (firstn 20
         (sort by_score_desc (idx_search (trim q) (search_options fields))))
      (trim q)
      {| resultsEl := resultsEl p;
         calls := calls p
                  ++ [IndexSearch (trim q) (search_options fields);
                      ArraySort
                        (idx_search (trim q) (search_options fields))] |}.
Proof.
  intros H. unfold doSearch.
  replace (len (trim q) <? 2) with false by (symmetry; apply Z.ltb_ge; lia).
  unfold bind, record_call. cbn [resultsEl calls].
  now rewrite <- app_assoc.
Qed.

Lemma render_shows (hits : list hit) (query : str) (p : page)
      (items : list li) :
  hits <> [] ->
  render_all store query hits = Ok items ->
  render store hits query p
  = ({| resultsEl := Ul items; calls := calls p |}, Ok tt).
Proof.
  intros Hne E. unfold render, bind, set_results, lift.
  destruct hits; [congruence|]. now rewrite E.
Qed.

End SearchFacts.

(** C3, as amended.  For a hit whose reference is absent from the document
    store, the rendered link points to the reference itself, and to # only
    when the reference is the empty string; its text is Untitled and no
    snippet is rendered. *)
Theorem C3_missing_document :
  forall (engine : RegExpEngine) (store : store_t) (query : str) (h : hit),
    lookup store (ref h) = None ->
    render_hit store query h
    = Ok {| a_href := if truthy (ref h) then ref h else lit "#";
            a_textContent := lit "Untitled";
            div_innerHTML := None |}.
Proof.
  intros engine store query h H. unfold render_hit. rewrite H. reflexivity.
Qed.

Lemma C3_missing_document_witness :
  let h := {| ref := lit "/posts/cats/"; score := 1 |} in
  let store := [(lit "/posts/dogs/", no_document)] in
  lookup store (ref h) = None
  /\ render_hit (engine := basic_engine) store (lit "cats") h
     = Ok {| a_href := lit "/posts/cats/";
             a_textContent := lit "Untitled";
             div_innerHTML := None |}.
Proof.
  intros h store.
  assert (H : lookup store (ref h) = None) by reflexivity.
  split; [exact H|].
  exact (C3_missing_document basic_engine store (lit "cats") h H).
Defined.

(** C3 as stated fails: the hit /posts/cats/ is absent from the store and
    its link does not point to #. *)
Lemma C3_counterexample :
  let h := {| ref := lit "/posts/cats/"; score := 1 |} in
  let store := [(lit "/posts/dogs/", no_document)] in
  lookup store (ref h) = None
  /\ exists item,
      render_hit (engine := basic_engine) store (lit "cats") h = Ok item
      /\ a_href item = lit "/posts/cats/"
      /\ a_href item <> lit "#".
Proof.
  intros h store. split; [reflexivity|].
  eexists. split; [reflexivity|]. split; [reflexivity|]. discriminate.
Qed.

(** C8.  When the trimmed query is shorter than two characters, [doSearch]
    empties the results container and returns: the index is not searched
    and nothing is sorted. *)
Theorem C8_short_query :
  forall (engine : RegExpEngine) (idx_search : str -> options -> list hit)
         (fields : list str) (store : store_t) (q : str) (p : page),
    len (trim q) < 2 ->
    doSearch idx_search fields store q p
    = ({| resultsEl := Blank; calls := calls p |}, Ok tt).
Proof.
  intros engine idx_search fields store q p H. unfold doSearch.
  replace (len (trim q) <? 2) with true by (symmetry; apply Z.ltb_lt; lia).
  reflexivity.
Qed.

(** C9.  For a trimmed query of at least two characters, [doSearch] hands
    to [render] the hits of the index sorted by descending score, hits of
    equal score in the order the index gave them, cut to the first 20; the
    list shown has one entry for each of these hits, in that order. *)
Theorem C9_ranked_top_20 :
  forall (engine : RegExpEngine) (idx_search : str -> options -> list hit)
         (fields : list str) (store : store_t) (q : str) (p : page),
    2 <= len (trim q) ->
    let query := trim q in
    let hits := idx_search query (search_options fields) in
    let ranked := sort by_score_desc hits in
    let top := firstn 20 ranked in
    Permutation ranked hits
    /\ descending ranked
    /\ (forall s, ties s ranked = ties s hits)
    /\ (length top <= 20)%nat
    /\ doSearch idx_search fields store q p
       = render store top query
           {| resultsEl := resultsEl p;
              calls := calls p ++ [IndexSearch query (search_options fields);
                                   ArraySort hits] |}
    /\ (forall items,
          top <> [] -> render_all store query top = Ok items ->
          resultsEl (fst (doSearch idx_search fields store q p)) = Ul items
          /\ Forall2 (fun h item => render_hit store query h = Ok item)
               top items).
Proof.
  intros engine idx_search fields store q p H query hits ranked top.
  split; [apply sort_perm|]. split; [apply sort_descending|].
  split; [intros s; apply sort_ties|]. split; [apply firstn_le_length|].
  split; [now apply doSearch_long|].
  intros items Hne E. split; [|now apply render_all_items].
  rewrite (doSearch_long idx_search fields store q p H).
  fold query hits ranked top.
  now rewrite (render_shows store top query _ items Hne E).
Qed.

Lemma C8_short_query_witness :
  len (trim (lit "  c ")) < 2
  /\ doSearch (engine := basic_engine) sample_search sample_fields
       sample_store (lit "  c ") empty_page
     = ({| resultsEl := Blank; calls := [] |}, Ok tt).
Proof.
  assert (H : len (trim (lit "  c ")) < 2) by (vm_compute; reflexivity).
  split; [exact H|].
  exact (C8_short_query basic_engine sample_search sample_fields
           sample_store (lit "  c ") empty_page H).
Defined.

Lemma C9_ranked_top_20_witness :
  2 <= len (trim (lit " cat "))
  /\ sort by_score_desc
       (sample_search (lit "cat") (search_options sample_fields))
     = [ {| ref := lit "/posts/cats/"; score := 3 # 2 |};
         {| ref := lit "/posts/dogs/"; score := 1 # 2 |};
         {| ref := lit "/posts/birds/"; score := 2 # 4 |} ]
  /\ descending
       (sort by_score_desc
          (sample_search (trim (lit " cat ")) (search_options sample_fields))).
Proof.
  assert (H : 2 <= len (trim (lit " cat "))) by (vm_compute; discriminate).
  split; [exact H|]. split; [reflexivity|].
  exact (proj1 (proj2 (C9_ranked_top_20 basic_engine sample_search
                         sample_fields sample_store (lit " cat ")
                         empty_page H))).
Defined.

(** ** Worked examples *)

Example doSearch_cat :
  doSearch (engine := basic_engine) sample_search sample_fields sample_store
    (lit " cat ") empty_page
  = ({| resultsEl :=
          Ul [ {| a_href := lit "/posts/cats/";
                  a_textContent := lit "Cats";
                  div_innerHTML :=
                    Some (lit "<mark>Cat</mark>s are great pets") |};
               {| a_href := lit "/posts/dogs/";
                  a_textContent := lit "Dogs & cats";
                  div_innerHTML :=
                    Some (lit "Dogs chase &lt;b&gt;"
                            ++ lit "<mark>cat</mark>s&lt;/b&gt;") |};
               {| a_href := lit "/posts/birds/";
                  a_textContent := lit "Untitled";
                  div_innerHTML := None |} ];
        calls :=
          [ IndexSearch (lit "cat")
              {| opt_bool := lit "OR";
                 opt_expand := true;
                 opt_fields := Some [(lit "title", 8); (lit "body", 2)] |};
            ArraySort
              (sample_search (lit "cat") (search_options sample_fields)) ] |},
     Ok tt).
Proof. reflexivity. Qed.

Example split_edges :
  split (lit ",a--b.") = [lit ""; lit "a"; lit "b"; lit ""].
Proof. reflexivity. Qed.

Example buildSnippet_window :
  buildSnippet (engine := basic_engine)
    (lit "0123456789abcdefghijklmnopqrstuvwxyz") (lit "KLM") 12
  = Ok (ellipsis ++ lit "ghij<mark>klm</mark>nopqr" ++ ellipsis).
Proof. reflexivity. Qed.

(* ================================================================== *)
(** * Further properties *)

(** ** [esc] *)

Lemma esc_char_cases (c : ascii) :
  (c = "&"%char /\ esc_char c = lit "&amp;")
  \/ (c = "<"%char /\ esc_char c = lit "&lt;")
  \/ (c = ">"%char /\ esc_char c = lit "&gt;")
  \/ (c = dquote /\ esc_char c = lit "&quot;")
  \/ (c = "'"%char /\ esc_char c = lit "&#39;")
  \/ (html_special c = false /\ esc_char c = [c]).
Proof. by_cases_on_char c; auto 10. Qed.

Lemma esc_app (s t : str) : esc (s ++ t) = esc s ++ esc t.
Proof. unfold esc. apply flat_map_app. Qed.

Lemma esc_char_safe (c d : ascii) :
  In d (esc_char c) -> d = "&"%char \/ html_special d = false.
Proof.
  destruct (esc_char_cases c) as [[_ E]|[[_ E]|[[_ E]|[[_ E]|[[_ E]|[N E]]]]]];
    rewrite E; cbn; intros H;
    repeat (destruct H as [<-|H]; [auto|]); try contradiction.
Qed.

(** X1.  The escaped string holds no angle bracket and no quote of either
    kind; the only special character left in it is the ampersand that
    [esc] itself writes. *)
Theorem esc_output_safe :
  forall (s : str) (d : ascii),
    In d (esc s) ->
    d <> "<"%char /\ d <> ">"%char /\ d <> dquote /\ d <> "'"%char.
Proof.
  intros s d H. unfold esc in H. apply in_flat_map in H as (c & _ & H).
  apply esc_char_safe in H as [->|H].
  - repeat split; discriminate.
  - repeat split; intros ->; discriminate.
Qed.

Lemma esc_output_safe_witness :
  In "b"%char (esc (lit "<b>")) /\ "b"%char <> "<"%char.
Proof.
  assert (H : In "b"%char (esc (lit "<b>"))).
  { cbn. right. right. right. right. left. reflexivity. }
  split; [exact H|].
  exact (proj1 (esc_output_safe (lit "<b>") "b"%char H)).
Defined.

Lemma esc_char_length (c : ascii) :
  (1 <= length (esc_char c))%nat
  /\ (html_special c = true -> (2 <= length (esc_char c))%nat).
Proof. by_cases_on_char c; split; intros; try discriminate; lia. Qed.

Lemma esc_length (s : str) : (length s <= length (esc s))%nat.
Proof.
  induction s as [|c s IH]; cbn [esc flat_map]; [lia|].
  rewrite length_app. fold (esc s).
  pose proof (proj1 (esc_char_length c)). cbn [length]. lia.
Qed.

(** X2.  [esc] returns a string unchanged exactly when the string holds
    none of the five special characters. *)
Theorem esc_identity_iff :
  forall s : str,
    esc s = s <-> forallb (fun c => negb (html_special c)) s = true.
Proof.
  induction s as [|c s IH]; cbn [esc flat_map forallb]; [tauto|].
  fold (esc s). split.
  - intros H.
    destruct (esc_char_cases c)
      as [[_ E]|[[_ E]|[[_ E]|[[_ E]|[[_ E]|[N E]]]]]];
      rewrite E in H;
      try (exfalso; apply (f_equal (@length ascii)) in H;
           cbn in H; rewrite ?length_app in H;
           pose proof (esc_length s); cbn in H; lia).
    rewrite N. cbn [negb andb]. apply IH.
    cbn in H. now injection H.
  - intros H. apply andb_prop in H as [N H]. apply negb_true_iff in N.
    destruct (esc_char_cases c)
      as [[-> _]|[[-> _]|[[-> _]|[[-> _]|[[-> _]|[_ E]]]]]];
      try discriminate.
    rewrite E. cbn [app]. f_equal. now apply IH.
Qed.

(** X3.  [esc] loses nothing: two strings with the same escaped form are
    equal. *)
Theorem esc_injective :
  forall s t : str, esc s = esc t -> s = t.
Proof.
  induction s as [|c s IH]; intros [|d t] H.
  - reflexivity.
  - exfalso. apply (f_equal (@length ascii)) in H.
    pose proof (esc_length (d :: t)). cbn in H, H0. rewrite <- H in H0.
    cbn in H0. lia.
  - exfalso. apply (f_equal (@length ascii)) in H.
    pose proof (esc_length (c :: s)). cbn in H, H0. rewrite H in H0.
    cbn in H0. lia.
  - cbn [esc flat_map] in H. fold (esc s) in H. fold (esc t) in H.
    destruct (esc_char_cases c)
      as [[-> Ec]|[[-> Ec]|[[-> Ec]|[[-> Ec]|[[-> Ec]|[Nc Ec]]]]]];
      destruct (esc_char_cases d)
        as [[-> Ed]|[[-> Ed]|[[-> Ed]|[[-> Ed]|[[-> Ed]|[Nd Ed]]]]]];
      rewrite ?Ec, ?Ed in H; cbn in H;
      try discriminate H;
      try (injection H as H; f_equal; now apply IH);
      try (injection H as -> _; discriminate);
      try (injection H as <- _; discriminate).
    injection H as -> H. f_equal. now apply IH.
Qed.

Lemma esc_injective_witness :
  esc (lit "a<b") = esc (lit "a<b") /\ lit "a<b" = lit "a<b".
Proof.
  assert (H : esc (lit "a<b") = esc (lit "a<b")) by reflexivity.
  split; [exact H|].
  exact (esc_injective (lit "a<b") (lit "a<b") H).
Defined.

(** ** [tokenize] *)

Lemma Runs_app_sep (a b : str) (c : ascii) (wa wb : list str) :
  is_delim c = true -> Runs a wa -> Runs b wb ->
  Runs (a ++ c :: b) (wa ++ wb).
Proof.
  intros Hc Ra Rb.
  induction Ra as [|d s ws Hd _ IH|w Hw|w d s ws Hw Hd _ IH]; cbn [app].
  - now apply Runs_sep.
  - now apply Runs_sep.
  - now apply Runs_run.
  - rewrite <- app_assoc. cbn [app]. now apply Runs_run.
Qed.

Lemma pieces_app_sep (a b : str) (c : ascii) :
  is_delim c = true ->
  filter truthy (split (a ++ c :: b))
  = filter truthy (split a) ++ filter truthy (split b).
Proof.
  intros Hc. apply Runs_are_tokens. apply Runs_app_sep.
  - exact Hc.
  - apply tokens_are_Runs.
  - apply tokens_are_Runs.
Qed.

(** X4.  A separator character between two strings keeps their pieces
    apart: splitting the whole and dropping the empty pieces, as
    [tokenize] does after lower-casing, gives the non-empty pieces of the
    first string followed by those of the second. *)
Theorem split_across_separator :
  forall (a b : str) (c : ascii),
    is_delim c = true ->
    filter truthy (split (a ++ c :: b))
    = filter truthy (split a) ++ filter truthy (split b).
Proof. exact pieces_app_sep. Qed.

Lemma split_across_separator_witness :
  is_delim ","%char = true
  /\ filter truthy (split (lit "hello" ++ ","%char :: lit " world!"))
     = [lit "hello"; lit "world"].
Proof.
  assert (H : is_delim ","%char = true) by reflexivity.
  split; [exact H|].
  exact (split_across_separator (lit "hello") (lit " world!") ","%char H).
Defined.

Lemma join_spaces_fixed (ws : list str) :
  Forall (Forall (fun c => lower_char c = c)) ws ->
  Forall (fun c => lower_char c = c) (join_spaces ws).
Proof.
  induction 1 as [|w ws Hw Hws IH]; [constructor|].
  destruct ws as [|w' ws']; [exact Hw|].
  change (join_spaces (w :: w' :: ws'))
    with (w ++ " "%char :: join_spaces (w' :: ws')).
  apply Forall_app. split; [exact Hw|]. constructor; [reflexivity|exact IH].
Qed.

Lemma pieces_join_runs (ws : list str) :
  Forall is_run ws -> filter truthy (split (join_spaces ws)) = ws.
Proof.
  induction 1 as [|w ws [Hne Hd] Hws IH]; [reflexivity|].
  assert (Ew : filter truthy (split w) = [w]).
  { unfold split. rewrite (split_from_run false w Hd). cbn [filter].
    destruct w; [congruence|reflexivity]. }
  destruct ws as [|w' ws']; [exact Ew|].
  change (join_spaces (w :: w' :: ws'))
    with (w ++ " "%char :: join_spaces (w' :: ws')).
  rewrite pieces_app_sep by reflexivity. now rewrite Ew, IH.
Qed.

Lemma tokenize_join_runs (ws : list str) :
  Forall (fun t => is_run t /\ Forall (fun c => lower_char c = c) t) ws ->
  tokenize (join_spaces ws) = ws.
Proof.
  intros H. unfold tokenize. rewrite toLowerCase_fixed.
  - apply pieces_join_runs. eapply Forall_impl; [|exact H]. now intros t [R _].
  - apply join_spaces_fixed. eapply Forall_impl; [|exact H].
    now intros t [_ L].
Qed.

(** X5.  Joining the tokens of a query with single spaces gives a query
    with the same tokens. *)
Theorem tokenize_join_round_trip :
  forall q : str, tokenize (join_spaces (tokenize q)) = tokenize q.
Proof.
  intros q. apply tokenize_join_runs. apply Forall_forall.
  intros t Ht. now apply (tokenize_sound q).
Qed.

Lemma Runs_occur (s : str) (ws : list str) :
  Runs s ws -> forall t, In t ws -> occurs s t.
Proof.
  induction 1 as [|c s ws Hc _ IH|w Hw|w c s ws Hw Hc _ IH];
    intros t Ht; cbn in Ht.
  - contradiction.
  - destruct (IH t Ht) as (i & pre & post & -> & _).
    exists (len (c :: pre)), (c :: pre), post. split; reflexivity.
  - destruct Ht as [<-|[]]. exists 0, [], []. split; [|reflexivity].
    cbn [app]. now rewrite app_nil_r.
  - destruct Ht as [<-|Ht].
    + exists 0, [], (c :: s). split; reflexivity.
    + destruct (IH t Ht) as (i & pre & post & -> & _).
      exists (len (w ++ c :: pre)), (w ++ c :: pre), post.
      split; [|reflexivity]. rewrite <- app_assoc. reflexivity.
Qed.

(** X6.  Every token of a query occurs as a substring of the lower-cased
    query, and so is no longer than the lower-cased query. *)
Theorem tokenize_tokens_occur :
  forall (q t : str),
    In t (tokenize q) ->
    occurs (toLowerCase q) t /\ len t <= len (toLowerCase q).
Proof.
  intros q t H.
  assert (O : occurs (toLowerCase q) t)
    by exact (Runs_occur _ _ (tokens_are_Runs (toLowerCase q)) t H).
  split; [exact O|].
  destruct O as (i & pre & post & E & _).
  rewrite E, !len_app.
  pose proof (len_nonneg pre). pose proof (len_nonneg post). lia.
Qed.

Lemma tokenize_tokens_occur_witness :
  In (lit "world") (tokenize (lit "Hello, World!"))
  /\ occurs (toLowerCase (lit "Hello, World!")) (lit "world").
Proof.
  assert (H : In (lit "world") (tokenize (lit "Hello, World!"))).
  { cbn. right. left. reflexivity. }
  split; [exact H|].
  exact (proj1 (tokenize_tokens_occur (lit "Hello, World!") (lit "world") H)).
Defined.

(** ** The earliest occurrence and the window *)

Lemma earliest_offset_same_tokens (lc : str) (ts ts' : list str) (i : Z) :
  (forall t, In t ts <-> In t ts') ->
  earliest_offset lc ts i -> earliest_offset lc ts' i.
Proof.
  intros S [(t & Ht & O) L]. split.
  - exists t. split; [now apply S|exact O].
  - intros u j Hu. apply L. now apply S.
Qed.

(** X7.  The offset found by the loop over the tokens depends on which
    tokens there are, not on their order or on repetitions. *)
Theorem earliest_order_irrelevant :
  forall (lc : str) (ts ts' : list str),
    (forall t, In t ts <-> In t ts') ->
    earliest lc ts = earliest lc ts'.
Proof.
  intros lc ts ts' S.
  destruct (earliest_spec lc ts) as [[E N]|[_ E]];
    destruct (earliest_spec lc ts') as [[E' N']|[_ E']].
  - congruence.
  - exfalso. destruct E' as [(t & Ht & O) _].
    apply (N t); [now apply S|]. now exists (earliest lc ts').
  - exfalso. destruct E as [(t & Ht & O) _].
    apply (N' t); [now apply S|]. now exists (earliest lc ts).
  - apply (earliest_offset_unique lc ts' _ _); [|exact E'].
    now apply (earliest_offset_same_tokens lc ts ts').
Qed.

Lemma earliest_order_irrelevant_witness :
  (forall t, In t [lit "b"; lit "a"] <-> In t [lit "a"; lit "b"; lit "a"])
  /\ earliest (lit "xxab") [lit "b"; lit "a"]
     = earliest (lit "xxab") [lit "a"; lit "b"; lit "a"].
Proof.
  assert (H : forall t,
             In t [lit "b"; lit "a"] <-> In t [lit "a"; lit "b"; lit "a"]).
  { intros t. cbn. tauto. }
  split; [exact H|].
  exact (earliest_order_irrelevant (lit "xxab") _ _ H).
Defined.

(** X8.  For a text whose lower-case form has the length of the text
    itself, when a token occurs and [maxLen] is at least 1, the window
    that [buildSnippet] escapes and highlights lies inside the text, holds
    at most [maxLen] characters and holds the character of the text at
    which the earliest occurrence starts. *)
Theorem buildSnippet_window_bounds :
  forall (engine : RegExpEngine) (text query : str) (maxLen offset : Z),
    1 <= maxLen ->
    len (toLowerCase text) = len text ->
    earliest_offset (toLowerCase text) (tokenize query) offset ->
    let start := Z.max 0 (offset - maxLen / 3) in
    let end_ := Z.min (len text) (start + maxLen) in
    let window :=
      firstn (Z.to_nat (end_ - start)) (skipn (Z.to_nat start) text) in
    0 <= start /\ start <= offset /\ offset < end_ /\ end_ <= len text
    /\ len window = end_ - start
    /\ end_ - start <= maxLen
    /\ buildSnippet text query maxLen
       = (html <- highlight (tokenize query) (esc window) ;;
          Ok ((if 0 <? start then ellipsis else [])
                ++ html
                ++ (if end_ <? len text then ellipsis else []))).
Proof.
  intros engine text query maxLen offset Hm Hlen E start end_ window.
  pose proof E as [(t & Ht & pre & post & Elc & Hpre) _].
  pose proof (len_nonneg text) as Hn.
  assert (Hoff : 0 <= offset /\ offset < len text).
  { rewrite <- Hlen, Elc, !len_app.
    pose proof (tokenize_nonempty query t Ht) as Hne.
    pose proof (len_nonneg pre). pose proof (len_nonneg post).
    destruct t; [congruence|]. rewrite len_cons.
    pose proof (len_nonneg t). lia. }
  assert (Hdiv : 0 <= maxLen / 3) by (apply Z.div_pos; lia).
  assert (Hdiv' : maxLen / 3 < maxLen)
    by (apply Z.div_lt_upper_bound; lia).
  assert (B : 0 <= start /\ start <= offset /\ offset < end_
              /\ end_ <= len text /\ end_ - start <= maxLen)
    by (unfold start, end_; repeat split; lia).
  destruct B as (B1 & B2 & B3 & B4 & B5).
  repeat split; try assumption.
  - unfold window, len in *. rewrite length_firstn, length_skipn. lia.
  - rewrite (buildSnippet_match text query maxLen offset E). cbv zeta.
    fold start. fold end_. rewrite slice_from_to by lia. reflexivity.
Qed.

Lemma buildSnippet_window_bounds_witness :
  let text := lit "0123456789abcdefghijklmnopqrstuvwxyz" in
  1 <= 12
  /\ len (toLowerCase text) = len text
  /\ earliest_offset (toLowerCase text) (tokenize (lit "klm")) 20
  /\ Z.max 0 (20 - 12 / 3) <= 20
  /\ 20 < Z.min (len text) (Z.max 0 (20 - 12 / 3) + 12).
Proof.
  intros text.
  assert (H1 : 1 <= 12) by lia.
  assert (H2 : len (toLowerCase text) = len text) by reflexivity.
  assert (H3 : earliest_offset (toLowerCase text) (tokenize (lit "klm")) 20).
  { split.
    - exists (lit "klm"). split; [now left|].
      exists (lit "0123456789abcdefghij"), (lit "nopqrstuvwxyz").
      split; reflexivity.
    - intros t j [<-|[]] O.
      destruct (indexOf_spec (toLowerCase text) (lit "klm"))
        as [[_ N]|(_ & _ & L)].
      + exfalso. apply N. now exists j.
      + exact (L j O). }
  split; [exact H1|]. split; [exact H2|]. split; [exact H3|].
  destruct (buildSnippet_window_bounds basic_engine text (lit "klm") 12 20
              H1 H2 H3) as (_ & B & C & _).
  split; [exact B|exact C].
Defined.

(** ** Errors of [buildSnippet] *)

Section ThrowFacts.

Context {engine : RegExpEngine}.

Lemma highlight_throw (ts : list str) (html : str) (e : exn) :
  highlight ts html = Throw e ->
  exists t, In t ts
            /\ RegExp_new (pattern_source t) (lit "gi") = None
            /\ e = SyntaxError (pattern_source t).
Proof.
  revert html. induction ts as [|t ts IH]; intros html; cbn [highlight].
  - discriminate.
  - unfold highlight_step.
    destruct (negb (truthy t)); cbn [rbind].
    + intros H. destruct (IH _ H) as (u & Hu & R). exists u. split; auto.
      now right.
    + destruct (RegExp_new (pattern_source t) (lit "gi")) eqn:R;
        cbn [rbind].
      * intros H. destruct (IH _ H) as (u & Hu & R'). exists u.
        split; auto. now right.
      * intros [= <-]. exists t. split; [now left|]. auto.
Qed.

Lemma highlight_ok (ts : list str) (html : str) :
  (forall t, In t ts -> RegExp_new (pattern_source t) (lit "gi") <> None) ->
  exists html', highlight ts html = Ok html'.
Proof.
  intros H. destruct (highlight ts html) as [html'|e] eqn:E.
  - now exists html'.
  - apply highlight_throw in E as (t & Ht & R & _). now destruct (H t Ht).
Qed.

End ThrowFacts.

Lemma buildSnippet_throw_cause :
  forall (engine : RegExpEngine) (text query : str) (maxLen : Z),
    (forall e, buildSnippet text query maxLen = Throw e ->
       exists t, In t (tokenize query)
                 /\ RegExp_new (pattern_source t) (lit "gi") = None
                 /\ e = SyntaxError (pattern_source t))
    /\ ((forall t, In t (tokenize query) ->
           RegExp_new (pattern_source t) (lit "gi") <> None) ->
        exists html, buildSnippet text query maxLen = Ok html).
Proof.
  intros engine text query maxLen.
  assert (G : forall e, buildSnippet text query maxLen = Throw e ->
                exists t, In t (tokenize query)
                  /\ RegExp_new (pattern_source t) (lit "gi") = None
                  /\ e = SyntaxError (pattern_source t)).
  { intros e. unfold buildSnippet.
    destruct (negb (truthy text)); [discriminate|].
    destruct (negb (0 <? Z.of_nat (length (tokenize query))));
      [discriminate|].
    destruct (earliest (toLowerCase text) (tokenize query) =? -1);
      [discriminate|].
    match goal with
    | |- context [highlight ?ts ?h] =>
        destruct (highlight ts h) as [html|e'] eqn:E
    end; cbn [rbind]; [discriminate|].
    intros [= <-]. now apply highlight_throw in E. }
  split; [exact G|].
  intros H. destruct (buildSnippet text query maxLen) as [html|e] eqn:E.
  - now exists html.
  - destruct (G e eq_refl) as (t & Ht & R & _). now destruct (H t Ht).
Qed.

(** X9.  [buildSnippet] throws nothing but the SyntaxError of [new RegExp]
    for the pattern of one of the tokens of the query; when the engine
    accepts the pattern of every token, [buildSnippet] returns a string. *)
Theorem buildSnippet_throws_only_SyntaxError :
  forall (engine : RegExpEngine) (text query : str) (maxLen : Z),
    (forall e, buildSnippet text query maxLen = Throw e ->
       exists t, In t (tokenize query)
                 /\ RegExp_new (pattern_source t) (lit "gi") = None
                 /\ e = SyntaxError (pattern_source t))
    /\ ((forall t, In t (tokenize query) ->
           RegExp_new (pattern_source t) (lit "gi") <> None) ->
        exists html, buildSnippet text query maxLen = Ok html).
Proof. exact buildSnippet_throw_cause. Qed.

Lemma buildSnippet_throws_only_SyntaxError_witness :
  buildSnippet (engine := basic_engine) (lit "c++ is fun") (lit "c++") 200
  = Throw (SyntaxError (lit "(c++)"))
  /\ exists t, In t (tokenize (lit "c++"))
               /\ BasicRegExp.compile (pattern_source t) (lit "gi") = None.
Proof.
  assert (H : buildSnippet (engine := basic_engine)
                (lit "c++ is fun") (lit "c++") 200
              = Throw (SyntaxError (lit "(c++)"))) by reflexivity.
  split; [exact H|].
  destruct (proj1 (buildSnippet_throws_only_SyntaxError basic_engine
                     (lit "c++ is fun") (lit "c++") 200) _ H)
    as (t & Ht & R & _).
  exists t. split; [exact Ht|exact R].
Defined.

(** ** Patterns of plain tokens *)

(** X10.  A token without closing bracket goes into the pattern source as
    it is: no character of it is escaped, whatever it means in a regular
    expression. *)
Theorem pattern_source_unescaped :
  forall t : str,
    ~ In "]"%char t -> pattern_source t = lit "(" ++ t ++ lit ")".
Proof.
  intros t H. unfold pattern_source. now rewrite escapeRegExp_unchanged.
Qed.

Lemma pattern_source_unescaped_witness :
  ~ In "]"%char (lit "a|b*")
  /\ pattern_source (lit "a|b*") = lit "(a|b*)".
Proof.
  assert (H : ~ In "]"%char (lit "a|b*")).
  { cbn. intros [N|[N|[N|[N|[]]]]]; discriminate N. }
  split; [exact H|].
  exact (pattern_source_unescaped (lit "a|b*") H).
Defined.

Lemma plain_char_tests (c : ascii) :
  BasicRegExp.is_syntax c = false ->
  Ascii.eqb c ")" = false /\ Ascii.eqb c "|" = false
  /\ Ascii.eqb c "*" = false /\ Ascii.eqb c "+" = false
  /\ Ascii.eqb c "^" = false /\ Ascii.eqb c "$" = false
  /\ Ascii.eqb c backslash = false /\ c <> "]"%char.
Proof. by_cases_on_char c; intros; repeat split; discriminate. Qed.

Lemma parse_group_plain (t : str) (alts terms : list BasicRegExp.re)
      (q : bool) :
  plain t = true ->
  BasicRegExp.parse_group (t ++ lit ")") alts terms q
  = BasicRegExp.Pattern
      (BasicRegExp.alt_of alts
         (BasicRegExp.seq_of (rev (map BasicRegExp.Chr t) ++ terms))).
Proof.
  revert terms q. induction t as [|c t IH]; intros terms q H.
  - reflexivity.
  - cbn [plain forallb] in H. apply andb_prop in H as [Hc Ht].
    apply negb_true_iff in Hc.
    destruct (plain_char_tests c Hc) as (E1 & E2 & E3 & E4 & E5 & E6 & E7 & _).
    cbn [app BasicRegExp.parse_group].
    rewrite E1, E2, E3, E4, E5, E6, E7, Hc.
    rewrite (IH _ _ Ht). cbn [map rev]. now rewrite <- app_assoc.
Qed.

Lemma plain_lower_char (c : ascii) :
  BasicRegExp.is_syntax c = false ->
  BasicRegExp.is_syntax (lower_char c) = false.
Proof. by_cases_on_char c. Qed.

Lemma compile_plain (t : str) :
  plain t = true ->
  BasicRegExp.compile (pattern_source t) (lit "gi") <> None.
Proof.
  intros H.
  assert (N : ~ In "]"%char t).
  { intros N. unfold plain in H. rewrite forallb_forall in H.
    specialize (H _ N). discriminate. }
  unfold pattern_source. rewrite (escapeRegExp_unchanged t N).
  unfold BasicRegExp.compile.
  change (BasicRegExp.parse (lit "(" ++ t ++ lit ")"))
    with (BasicRegExp.parse_group (t ++ lit ")") [] [] false).
  rewrite (parse_group_plain t [] [] false H). discriminate.
Qed.

(** X11.  With the reference engine, [buildSnippet] returns a string for
    every text and every query that holds none of the syntax characters
    of regular expressions. *)
Theorem buildSnippet_plain_query_returns :
  forall (text query : str) (maxLen : Z),
    forallb (fun c => negb (BasicRegExp.is_syntax c)) query = true ->
    exists html,
      buildSnippet (engine := basic_engine) text query maxLen = Ok html.
Proof.
  intros text query maxLen H.
  apply (buildSnippet_throw_cause basic_engine).
  intros t Ht. apply compile_plain. unfold plain. apply forallb_forall.
  intros c Hc.
  destruct (Runs_occur _ _ (tokens_are_Runs (toLowerCase query)) t Ht)
    as (i & pre & post & E & _).
  assert (Hin : In c (toLowerCase query)).
  { rewrite E. apply in_or_app. right. apply in_or_app. now left. }
  unfold toLowerCase in Hin. apply in_map_iff in Hin as (d & <- & Hd).
  rewrite forallb_forall in H. specialize (H d Hd).
  apply negb_true_iff in H. apply negb_true_iff.
  now apply plain_lower_char.
Qed.

Lemma buildSnippet_plain_query_returns_witness :
  forallb (fun c => negb (BasicRegExp.is_syntax c)) (lit "great pets") = true
  /\ exists html,
      buildSnippet (engine := basic_engine) (lit "Cats are great pets")
        (lit "great pets") 200 = Ok html.
Proof.
  assert (H : forallb (fun c => negb (BasicRegExp.is_syntax c))
                (lit "great pets") = true) by reflexivity.
  split; [exact H|].
  exact (buildSnippet_plain_query_returns (lit "Cats are great pets")
           (lit "great pets") 200 H).
Defined.

(** ** The hits that are shown *)

Lemma StronglySorted_app_order (A : Type) (R : A -> A -> Prop)
      (l1 l2 : list A) :
  StronglySorted R (l1 ++ l2) ->
  StronglySorted R l1
  /\ forall a b, In a l1 -> In b l2 -> R a b.
Proof.
  induction l1 as [|x l1 IH]; cbn [app]; intros H.
  - split; [constructor|]. intros a b [].
  - apply StronglySorted_inv in H as [H F]. destruct (IH H) as [S1 O].
    split.
    + constructor; [exact S1|].
      apply Forall_forall. intros y Hy. rewrite Forall_forall in F.
      apply F. apply in_or_app. now left.
    + intros a b [<-|Ha] Hb.
      * rewrite Forall_forall in F. apply F. apply in_or_app. now right.
      * now apply O.
Qed.

(** X12.  The hits handed to [render] are the best ones: they are in
    descending order of score, every hit that is cut off has a score no
    higher than each of them, and nothing is cut off when the index
    returns at most 20 hits. *)
Theorem top_20_are_best :
  forall hits : list hit,
    let ranked := sort by_score_desc hits in
    let top := firstn 20 ranked in
    descending top
    /\ (forall a b, In a top -> In b (skipn 20 ranked) ->
          (score b <= score a)%Q)
    /\ Permutation (top ++ skipn 20 ranked) hits
    /\ ((length hits <= 20)%nat -> Permutation top hits).
Proof.
  intros hits ranked top.
  pose proof (sort_descending hits) as D. fold ranked in D.
  unfold descending in D. rewrite <- (firstn_skipn 20 ranked) in D.
  apply StronglySorted_app_order in D as [D O].
  split; [exact D|]. split; [exact O|]. split.
  - unfold top. rewrite firstn_skipn. apply sort_perm.
  - intros H. unfold top. rewrite firstn_all2; [apply sort_perm|].
    unfold ranked. now rewrite (Permutation_length (sort_perm hits)).
Qed.

Lemma top_20_are_best_witness :
  let hits := sample_search [] (search_options sample_fields) in
  (length hits <= 20)%nat
  /\ Permutation (firstn 20 (sort by_score_desc hits)) hits.
Proof.
  intros hits.
  assert (H : (length hits <= 20)%nat) by (cbn; lia).
  split; [exact H|].
  exact (proj2 (proj2 (proj2 (top_20_are_best hits))) H).
Defined.

(** ** The search options *)

(** X13.  The field weights passed to the index are exactly the entries of
    the boost table whose field the index has, each at most once; the
    options carry no [fields] property exactly when the index has none of
    the five fields. *)
Theorem search_options_fields :
  forall (fields : list str),
    (forall f w, In (f, w) (boosted fields)
                 <-> hasField fields f = true /\ In (f, w) boost_table)
    /\ NoDup (map fst (boosted fields))
    /\ (opt_fields (search_options fields) = None
        <-> forall f w, In (f, w) boost_table -> hasField fields f = false)
    /\ (forall l, opt_fields (search_options fields) = Some l ->
          l = boosted fields /\ l <> []).
Proof.
  intros fields.
  assert (B : forall f w, In (f, w) (boosted fields)
                <-> hasField fields f = true /\ In (f, w) boost_table).
  { intros f w. unfold boosted, boost_table.
    destruct (hasField fields (lit "title")) eqn:H1,
             (hasField fields (lit "summary")) eqn:H2,
             (hasField fields (lit "description")) eqn:H3,
             (hasField fields (lit "body")) eqn:H4,
             (hasField fields (lit "content")) eqn:H5;
      cbn [app In];
      (split;
       [ intros H;
         repeat (destruct H as [H|H];
                 [apply pair_equal_spec in H as [<- <-];
                  split; [assumption|auto 10]|]);
         contradiction
       | intros [Hf H];
         repeat (destruct H as [H|H];
                 [apply pair_equal_spec in H as [<- <-];
                  try congruence; auto 10|]);
         contradiction ]). }
  split; [exact B|]. split.
  - unfold boosted.
    destruct (hasField fields (lit "title")),
             (hasField fields (lit "summary")),
             (hasField fields (lit "description")),
             (hasField fields (lit "body")),
             (hasField fields (lit "content"));
      cbn [app map fst];
      repeat (constructor; [cbn; intuition discriminate|]); constructor.
  - unfold search_options. cbn [opt_fields].
    destruct (boosted fields) as [|[f w] l] eqn:E.
    + split.
      * split; [|reflexivity]. intros _ f w H.
        destruct (hasField fields f) eqn:F; [|reflexivity].
        exfalso. apply (proj2 (B f w)); auto.
      * intros l [=].
    + split.
      * split; [discriminate|]. intros H. exfalso.
        destruct (proj1 (B f w) (or_introl eq_refl)) as [F I].
        rewrite (H f w I) in F. discriminate.
      * intros l' [= <-]. split; [reflexivity|discriminate].
Qed.

Lemma search_options_fields_witness :
  In (lit "title", 8) (boosted sample_fields)
  /\ hasField sample_fields (lit "title") = true
  /\ opt_fields (search_options sample_fields)
     = Some [(lit "title", 8); (lit "body", 2)].
Proof.
  assert (H : In (lit "title", 8) (boosted sample_fields))
    by (left; reflexivity).
  split; [exact H|].
  split; [|reflexivity].
  exact (proj1 (proj1 (proj1 (search_options_fields sample_fields) _ _) H)).
Defined.

(** ** What [render] and [doSearch] leave on the page *)

Section PageFacts.

Context {engine : RegExpEngine}.
Variable idx_search : str -> options -> list hit.
Variable fields : list str.
Variable store : store_t.

Lemma render_all_length (query : str) (hits : list hit) (items : list li) :
  render_all store query hits = Ok items -> length items = length hits.
Proof.
  intros H. apply render_all_items in H.
  symmetry. exact (Forall2_length H).
Qed.

Lemma render_all_built (query : str) (hits : list hit) (items : list li) :
  Forall2 (fun h item => render_hit store query h = Ok item) hits items ->
  render_all store query hits = Ok items.
Proof.
  induction 1 as [|h item hits items H _ IH]; cbn [render_all];
    [reflexivity|].
  now rewrite H, IH.
Qed.

Lemma render_cases (hits : list hit) (query : str) (p : page) :
  (hits = []
   /\ render store hits query p
      = ({| resultsEl := NoResults; calls := calls p |}, Ok tt))
  \/ (hits <> []
      /\ exists items,
          render_all store query hits = Ok items
          /\ length items = length hits
          /\ render store hits query p
             = ({| resultsEl := Ul items; calls := calls p |}, Ok tt))
  \/ (hits <> []
      /\ exists e,
          render_all store query hits = Throw e
          /\ render store hits query p
             = ({| resultsEl := Blank; calls := calls p |}, Throw e)).
Proof.
  destruct hits as [|h hs]; [left; split; reflexivity|]. right.
  destruct (render_all store query (h :: hs)) as [items|e] eqn:E.
  - left. split; [discriminate|]. exists items. split; [reflexivity|].
    split; [now apply (render_all_length query)|].
    unfold render, bind, set_results, lift. now rewrite E.
  - right. split; [discriminate|]. exists e. split; [reflexivity|].
    unfold render, bind, set_results, lift. now rewrite E.
Qed.

Lemma trimStart_idem (s : str) : trimStart (trimStart s) = trimStart s.
Proof.
  induction s as [|c s IH]; [reflexivity|]. cbn [trimStart].
  destruct (is_space c) eqn:E; [exact IH|]. cbn [trimStart]. now rewrite E.
Qed.

Lemma trimStart_keeps_last (w : str) (c : ascii) :
  is_space c = false -> exists x, trimStart (w ++ [c]) = x ++ [c].
Proof.
  intros Hc. induction w as [|d w [x IH]]; cbn [app trimStart].
  - rewrite Hc. now exists [].
  - destruct (is_space d); [now exists x|]. now exists (d :: w).
Qed.

Lemma trimStart_head (s : str) :
  trimStart s = []
  \/ exists c r, trimStart s = c :: r /\ is_space c = false.
Proof.
  induction s as [|c s IH]; [now left|]. cbn [trimStart].
  destruct (is_space c) eqn:E; [exact IH|]. right. now exists c, s.
Qed.

Lemma trim_idem (s : str) : trim (trim s) = trim s.
Proof.
  unfold trim, trimEnd.
  assert (G : trimStart (rev (trimStart (rev (trimStart s))))
              = rev (trimStart (rev (trimStart s)))).
  { destruct (trimStart_head s) as [->|(c & r & -> & Hc)]; [reflexivity|].
    cbn [rev]. destruct (trimStart_keeps_last (rev r) c Hc) as [x ->].
    rewrite rev_app_distr. cbn [rev app trimStart]. now rewrite Hc. }
  rewrite G, rev_involutive, trimStart_idem. reflexivity.
Qed.

Lemma doSearch_of_trim (q : str) (p : page) :
  doSearch idx_search fields store (trim q) p
  = doSearch idx_search fields store q p.
Proof. unfold doSearch. now rewrite trim_idem. Qed.

End PageFacts.

(** X14.  [render] replaces whatever the results container showed and
    makes no call to the index.  For no hit it shows the no-results
    message.  For hits whose entries can all be built it shows the list of
    these entries, one for each hit and in the order of the hits.  When
    building the entry of a hit throws, the entries of the hits before it
    having been built, it leaves the container blank and passes that
    error on. *)
Theorem render_outcome :
  forall (engine : RegExpEngine) (store : store_t) (hits : list hit)
         (query : str) (p : page),
    (hits = [] ->
     render store hits query p
     = ({| resultsEl := NoResults; calls := calls p |}, Ok tt))
    /\ (forall items,
          hits <> [] ->
          Forall2 (fun h item => render_hit store query h = Ok item)
            hits items ->
          render store hits query p
          = ({| resultsEl := Ul items; calls := calls p |}, Ok tt))
    /\ (forall before h after items e,
          hits = before ++ h :: after ->
          Forall2 (fun h item => render_hit store query h = Ok item)
            before items ->
          render_hit store query h = Throw e ->
          render store hits query p
          = ({| resultsEl := Blank; calls := calls p |}, Throw e)).
Proof.
  intros engine store hits query p. split; [|split].
  - intros ->. reflexivity.
  - intros items Hne F. apply render_shows; [exact Hne|].
    now apply render_all_built.
  - intros before h after items e -> F T.
    assert (E : render_all store query (before ++ h :: after) = Throw e).
    { clear p. induction F as [|h0 item before items H0 _ IH];
        cbn [app render_all].
      - now rewrite T.
      - now rewrite H0, IH. }
    unfold render, bind, set_results, lift.
    destruct before; cbn [app] in *; now rewrite E.
Qed.

Lemma render_outcome_witness :
  let birds := {| ref := lit "/posts/birds/"; score := 1 |} in
  let cpp := {| ref := lit "/posts/cpp/"; score := 1 |} in
  let store :=
    [(lit "/posts/cpp/",
      {| permalink := None; url := None; title := Some (lit "C++");
         summary := None; description := None; content := None;
         body := Some (lit "c++ is fun") |})] in
  render (engine := basic_engine) store [] (lit "c++") empty_page
  = ({| resultsEl := NoResults; calls := [] |}, Ok tt)
  /\ render (engine := basic_engine) store [birds] (lit "c++") empty_page
     = ({| resultsEl :=
             Ul [ {| a_href := lit "/posts/birds/";
                     a_textContent := lit "Untitled";
                     div_innerHTML := None |} ];
           calls := [] |}, Ok tt)
  /\ render (engine := basic_engine) store [birds; cpp; birds] (lit "c++")
       empty_page
     = ({| resultsEl := Blank; calls := [] |},
        Throw (SyntaxError (lit "(c++)"))).
Proof.
  intros birds cpp store.
  pose proof (render_outcome basic_engine store) as R.
  assert (B : Forall2
                (fun h item =>
                   render_hit (engine := basic_engine) store (lit "c++") h
                   = Ok item)
                [birds]
                [ {| a_href := lit "/posts/birds/";
                     a_textContent := lit "Untitled";
                     div_innerHTML := None |} ]).
  { constructor; [reflexivity|constructor]. }
  split; [|split].
  - exact (proj1 (R [] (lit "c++") empty_page) eq_refl).
  - refine (proj1 (proj2 (R [birds] (lit "c++") empty_page)) _ _ B).
    discriminate.
  - exact (proj2 (proj2 (R [birds; cpp; birds] (lit "c++") empty_page))
             [birds] cpp [birds] _ _ eq_refl B eq_refl).
Defined.

(** X15.  White space around the query makes no difference to
    [doSearch]. *)
Theorem doSearch_ignores_outer_space :
  forall (engine : RegExpEngine) (idx_search : str -> options -> list hit)
         (fields : list str) (store : store_t) (q : str) (p : page),
    doSearch idx_search fields store (trim q) p
    = doSearch idx_search fields store q p.
Proof.
  intros engine idx_search fields store q p. apply doSearch_of_trim.
Qed.

(** X16.  After [doSearch] the results container never shows an empty
    list nor one of more than 20 entries.  [doSearch] either makes no call
    at all, or searches the index once, with the trimmed query, which then
    has at least two characters, and sorts the hits it got. *)
Theorem doSearch_outcome :
  forall (engine : RegExpEngine) (idx_search : str -> options -> list hit)
         (fields : list str) (store : store_t) (q : str) (p : page),
    let p' := fst (doSearch idx_search fields store q p) in
    match resultsEl p' with
    | Ul items => items <> [] /\ (length items <= 20)%nat
    | _ => True
    end
    /\ ((len (trim q) < 2 /\ calls p' = calls p)
        \/ (2 <= len (trim q)
            /\ calls p'
               = calls p
                 ++ [IndexSearch (trim q) (search_options fields);
                     ArraySort
                       (idx_search (trim q) (search_options fields))])).
Proof.
  intros engine idx_search fields store q p p'.
  destruct (Z.lt_ge_cases (len (trim q)) 2) as [H|H].
  - subst p'. unfold doSearch.
    replace (len (trim q) <? 2) with true by (symmetry; apply Z.ltb_lt; lia).
    cbn. split; [exact I|]. left. split; [exact H|reflexivity].
  - subst p'. rewrite (doSearch_long idx_search fields store q p H).
    match goal with
    | |- context [render store ?hits ?query ?pg] =>
        destruct (render_cases store hits query pg)
          as [[Hh ->]|[(Hh & items & _ & L & ->)|(Hh & e & _ & ->)]]
    end; cbn [fst resultsEl calls].
    + split; [exact I|]. right. split; [exact H|reflexivity].
    + split; [|right; split; [exact H|reflexivity]]. split.
      * intros ->. cbn in L. symmetry in L.
        apply length_zero_iff_nil in L. contradiction.
      * rewrite L. apply firstn_le_length.
    + split; [exact I|]. right. split; [exact H|reflexivity].
Qed.

(** ** [debounce] *)

Section DebounceFacts.

Variable A : Type.
Variable ms : Z.

Lemma run_events_snoc (trace : list (event A)) (e : event A) :
  run_events ms (trace ++ [e]) = step ms (run_events ms trace) e.
Proof. unfold run_events. now rewrite fold_left_app. Qed.

Lemma last_invoke_snoc (trace : list (event A)) (e : event A) :
  last_invoke (trace ++ [e])
  = match e with
    | Invoke now args => Some (now, args)
    | Timeout _ _ => last_invoke trace
    end.
Proof.
  induction trace as [|x trace IH]; cbn [app last_invoke].
  - now destruct e.
  - rewrite IH. destruct e; [reflexivity|].
    destruct (last_invoke trace), x; reflexivity.
Qed.

Lemma invocations_snoc (trace : list (event A)) (e : event A) :
  invocations (trace ++ [e])
  = (invocations trace
     + match e with Invoke _ _ => 1 | Timeout _ _ => 0 end)%nat.
Proof.
  unfold invocations. rewrite filter_app, length_app.
  destruct e; reflexivity.
Qed.

(** What holds after every trace: nothing is scheduled, or one timeout is,
    the one [t] names, carrying the latest invocation. *)
Lemma settled_always (trace : list (event A)) :
  (scheduled (run_events ms trace) = []
   \/ exists id now args,
       scheduled (run_events ms trace) = [(id, (now + ms, args))]
       /\ timer (run_events ms trace) = Some id
       /\ last_invoke trace = Some (now, args))
  /\ (length (fn_calls (run_events ms trace))
      + length (scheduled (run_events ms trace))
      <= invocations trace)%nat.
Proof.
  induction trace as [|e trace IH] using rev_ind.
  - split; [now left|]. cbn. lia.
  - rewrite run_events_snoc. destruct IH as [S C].
    rewrite last_invoke_snoc, invocations_snoc.
    destruct e as [now args|now id]; cbn [step].
    + assert (E : clearTimeout (timer (run_events ms trace))
                    (scheduled (run_events ms trace)) = []).
      { destruct S as [->|(id & t0 & a & -> & -> & _)].
        - now destruct (timer (run_events ms trace)).
        - cbn. unfold other_than. cbn. now rewrite Nat.eqb_refl. }
      unfold debounced. cbn [scheduled timer fn_calls]. rewrite E.
      split.
      * right. exists (next_id (run_events ms trace)), now, args. auto.
      * cbn [app length]. lia.
    + unfold run_timeout.
      destruct S as [E|(id0 & t0 & a & E & T & L)]; rewrite E in *.
      * cbn [find]. rewrite E. split; [now left|]. cbn in *. lia.
      * cbn [find fst]. destruct (Nat.eqb id0 id) eqn:I.
        -- destruct (t0 + ms <=? now).
           ++ cbn [scheduled fn_calls filter]. unfold other_than.
              cbn [fst]. rewrite I. cbn [negb].
              split; [now left|]. rewrite length_app. cbn in *. lia.
           ++ rewrite E. split; [|cbn in *; lia].
              right. now exists id0, t0, a.
        -- rewrite E. split; [|cbn in *; lia].
           right. now exists id0, t0, a.
Qed.


End DebounceFacts.

(** X17.  After any sequence of calls of the debounced function and of
    timeouts run by the runtime, at most one timeout is scheduled; it is
    the one the variable [t] names and it carries the arguments of the
    latest call, due [ms] after it.  [fn] has been called at most once for
    each call of the debounced function that is not still waiting. *)
Theorem debounce_one_pending :
  forall (A : Type) (ms : Z) (trace : list (event A)),
    let s := run_events ms trace in
    (scheduled s = []
     \/ exists id now args,
         scheduled s = [(id, (now + ms, args))]
         /\ timer s = Some id
         /\ last_invoke trace = Some (now, args))
    /\ (length (fn_calls s) + length (scheduled s) <= invocations trace)%nat.
Proof. intros A ms trace. exact (settled_always A ms trace). Qed.


Example debounce_burst :
  fn_calls
    (run_events 120
       [ Invoke 0 (lit "c"); Invoke 50 (lit "ca"); Timeout 120 1;
         Invoke 130 (lit "cat"); Timeout 170 2; Timeout 250 3;
         Timeout 260 3 ])
  = [lit "cat"].
Proof. reflexivity. Qed.

(** ** Highlighting and the query *)

Section HighlightFacts.

Context {engine : RegExpEngine}.

Lemma highlight_app (ts1 ts2 : list str) (html : str) :
  highlight (ts1 ++ ts2) html
  = (html' <- highlight ts1 html ;; highlight ts2 html').
Proof.
  revert html. induction ts1 as [|t ts1 IH]; intros html; cbn [app highlight].
  - reflexivity.
  - destruct (highlight_step html t) as [h|e]; cbn [rbind]; [apply IH|].
    reflexivity.
Qed.

Lemma buildSnippet_same_tokens (text q q' : str) (maxLen : Z) :
  tokenize q = tokenize q' ->
  buildSnippet text q maxLen = buildSnippet text q' maxLen.
Proof. intros H. unfold buildSnippet. now rewrite H. Qed.

End HighlightFacts.

(** X19.  Highlighting with a list of tokens is done token by token, each
    round working on the markup the rounds before it produced: the tokens
    of a list put behind another are applied to the result of the first
    list, and not at all when the first list throws. *)
Theorem highlight_composes :
  forall (engine : RegExpEngine) (ts1 ts2 : list str) (html : str),
    highlight (ts1 ++ ts2) html
    = (html' <- highlight ts1 html ;; highlight ts2 html').
Proof. intros engine. exact highlight_app. Qed.

(** X20.  The snippet does not depend on the case of the query, nor on the
    separators between its words: two queries with the same tokens give
    the same snippet, and a query and its lower-case form do. *)
Theorem buildSnippet_query_case :
  forall (engine : RegExpEngine) (text q q' : str) (maxLen : Z),
    (tokenize q = tokenize q' ->
     buildSnippet text q maxLen = buildSnippet text q' maxLen)
    /\ buildSnippet text (toLowerCase q) maxLen = buildSnippet text q maxLen.
Proof.
  intros engine text q q' maxLen. split.
  - apply buildSnippet_same_tokens.
  - apply buildSnippet_same_tokens. unfold tokenize.
    now rewrite toLowerCase_idem.
Qed.

Lemma buildSnippet_query_case_witness :
  tokenize (lit "Great  PETS!") = tokenize (lit "great-pets")
  /\ buildSnippet (engine := basic_engine) (lit "Cats are great pets")
       (lit "Great  PETS!") 200
     = buildSnippet (engine := basic_engine) (lit "Cats are great pets")
         (lit "great-pets") 200.
Proof.
  assert (H : tokenize (lit "Great  PETS!") = tokenize (lit "great-pets"))
    by reflexivity.
  split; [exact H|].
  exact (proj1 (buildSnippet_query_case basic_engine
                  (lit "Cats are great pets") (lit "Great  PETS!")
                  (lit "great-pets") 200) H).
Defined.
